(** * many-color: hex colour parsing, size parsing and the image loop

    A shallow embedding of [many-color.go].  The file holds two revisions of
    the program; what they share (the colour regexes and [parseHex]) is
    modelled once, what differs lives in the modules [First] and [Second].

    Go strings are byte sequences: a string is a [list ascii].  The library
    functions the program calls ([regexp], [strconv], [strings], [image],
    [os], [png.Encode]) are modelled after their documented behaviour.  The
    platform enters through the width of [int] ([arch]), the files of the
    working directory and the encoder, which the programs take as a
    parameter. *)

From Stdlib Require Import Ascii String.
From Stdlib Require Import List ZArith NArith Lia Bool Arith.
Import ListNotations.

Local Open Scope Z_scope.

(** ** Strings *)

Definition str := list ascii.

(** A Go string literal. *)
Definition go (s : string) : str := list_ascii_of_string s.

Definition byte_of (c : ascii) : Z := Z.of_N (N_of_ascii c).

Definition between (lo hi c : ascii) : bool :=
  (byte_of lo <=? byte_of c) && (byte_of c <=? byte_of hi).

Definition ascii_eqb (a b : ascii) : bool := byte_of a =? byte_of b.

(** ** Package regexp

    The fragment of RE2 syntax the program's patterns use: literals, character
    classes given by ranges, concatenation, the greedy star, capture groups
    and the anchors [^] and [$], which without the [m] flag stand for the
    beginning and the end of the text.  All classes and literals of the
    program are ASCII, so matching byte by byte agrees with matching rune by
    rune. *)

Module regexp.

Inductive Regexp : Type :=
| Lit (c : ascii)
| Class (ranges : list (ascii * ascii))
| Cat (r1 r2 : Regexp)
| Star (r : Regexp)
| Capture (i : nat) (r : Regexp)
| BeginText
| EndText.

Definition in_class (ranges : list (ascii * ascii)) (c : ascii) : bool :=
  existsb (fun '(lo, hi) => between lo hi c) ranges.

(** Captured groups, latest binding first. *)
Definition caps := list (nat * str).

Fixpoint group (i : nat) (cs : caps) : str :=
  match cs with
  | [] => []
  | (j, g) :: cs' => if Nat.eqb i j then g else group i cs'
  end.

Fixpoint NumSubexp (r : Regexp) : nat :=
  match r with
  | Cat r1 r2 => Nat.max (NumSubexp r1) (NumSubexp r2)
  | Star r => NumSubexp r
  | Capture i r => Nat.max i (NumSubexp r)
  | _ => 0%nat
  end.

Section Matcher.
Variable A : Type.

(** The continuation gets the position reached, the rest of the text and
    the groups captured so far. *)
Definition cont := nat -> str -> caps -> option A.

(** Greedy iteration: one more round of [step] if that leads to a match,
    otherwise go on with [k].  A round that consumes nothing is dropped. *)
Fixpoint iterate (step : nat -> str -> caps -> cont -> option A) (k : cont)
    (fuel : nat) (pos : nat) (s : str) (cs : caps) : option A :=
  match fuel with
  | O => k pos s cs
  | S fuel' =>
      match step pos s cs
              (fun pos' s' cs' =>
                 if Nat.eqb pos' pos then None
                 else iterate step k fuel' pos' s' cs') with
      | Some a => Some a
      | None => k pos s cs
      end
  end.

(** Backtracking match of [r] at position [pos], the text from there on
    being [s]; alternatives are tried in priority order (leftmost-first). *)
Fixpoint run (r : Regexp) (pos : nat) (s : str) (cs : caps) (k : cont) : option A :=
  match r with
  | Lit c =>
      match s with
      | c' :: s' => if ascii_eqb c c' then k (S pos) s' cs else None
      | [] => None
      end
  | Class ranges =>
      match s with
      | c' :: s' => if in_class ranges c' then k (S pos) s' cs else None
      | [] => None
      end
  | Cat r1 r2 => run r1 pos s cs (fun pos' s' cs' => run r2 pos' s' cs' k)
  | Star r' => iterate (run r') k (S (length s)) pos s cs
  | Capture i r' =>
      run r' pos s cs
        (fun pos' s' cs' => k pos' s' ((i, firstn (pos' - pos) s) :: cs'))
  | BeginText => if Nat.eqb pos 0 then k pos s cs else None
  | EndText => match s with [] => k pos s cs | _ :: _ => None end
  end.
End Matcher.

Arguments iterate {A}.
Arguments run {A}.

(** The match of [r] that starts at [pos]: the matched text followed by the
    text of each group. *)
Definition match_at (r : Regexp) (pos : nat) (s : str) : option (list str) :=
  run r pos s []
    (fun pos' _ cs =>
       Some (firstn (pos' - pos) s
             :: map (fun i => group i cs) (seq 1 (NumSubexp r)))).

(** Leftmost match: start positions are tried from left to right. *)
Fixpoint search (r : Regexp) (pos : nat) (s : str) : option (list str) :=
  match match_at r pos s with
  | Some m => Some m
  | None =>
      match s with
      | [] => None
      | _ :: s' => search r (S pos) s'
      end
  end.

(** [FindStringSubmatch] returns the leftmost match and its groups, or the
    nil slice when there is no match. *)
Definition FindStringSubmatch (r : Regexp) (s : str) : list str :=
  match search r 0 s with
  | Some m => m
  | None => []
  end.

End regexp.

Import regexp.

(** ** The program's patterns *)

Definition digit19 : Regexp := Class [("1", "9")]%char.
Definition digit09 : Regexp := Class [("0", "9")]%char.
Definition hexdigit : Regexp := Class [("0", "9"); ("a", "f")]%char.

Fixpoint cat (rs : list Regexp) (last : Regexp) : Regexp :=
  match rs with
  | [] => last
  | r :: rs' => Cat r (cat rs' last)
  end.

(** The patterns "^([0-9a-f][0-9a-f])([0-9a-f][0-9a-f])([0-9a-f][0-9a-f])$"
    and "^([0-9a-f])([0-9a-f])([0-9a-f])$", in the order of the source. *)
Definition colorRegex : list Regexp :=
  [ cat [BeginText;
         Capture 1 (Cat hexdigit hexdigit);
         Capture 2 (Cat hexdigit hexdigit);
         Capture 3 (Cat hexdigit hexdigit)] EndText;
    cat [BeginText;
         Capture 1 hexdigit;
         Capture 2 hexdigit;
         Capture 3 hexdigit] EndText ].

(** ** Outcomes and errors

    A call returns, ends the process ([os.Exit]) or panics. *)

Inductive outcome (A : Type) : Type :=
| Done (a : A)
| Exit (code : Z)
| Panic (msg : string).

Arguments Done {A}.
Arguments Exit {A}.
Arguments Panic {A}.

Definition bind {A B : Type} (m : outcome A) (k : A -> outcome B) : outcome B :=
  match m with
  | Done a => k a
  | Exit code => Exit code
  | Panic msg => Panic msg
  end.

Notation "x <- m ;; k" := (bind m (fun x => k))
  (at level 61, m at next level, right associativity).

Inductive numErr : Type := ErrSyntax | ErrRange | ErrBase | ErrBitSize.

(** Values of Go's [error] interface that the program can meet; the nil
    error is [None]. *)
Inductive error_value : Type :=
| errorString (msg : string)
| NumError (Func : string) (Num : str) (Err : numErr)
| PathError (Op : string) (Path : str)
| FormatError (msg : string).

Definition error := option error_value.

Module errors.
Definition New (msg : string) : error := Some (errorString msg).
End errors.

(** Slices: indexing and slicing panic out of range. *)
Definition index {A : Type} (l : list A) (i : nat) : outcome A :=
  match nth_error l i with
  | Some x => Done x
  | None => Panic "index out of range"
  end.

Fixpoint replace {A : Type} (l : list A) (i : nat) (x : A) : list A :=
  match l, i with
  | [], _ => []
  | _ :: l', O => x :: l'
  | y :: l', S i' => y :: replace l' i' x
  end.

Definition store {A : Type} (l : list A) (i : nat) (x : A) : outcome (list A) :=
  if Nat.ltb i (length l) then Done (replace l i x)
  else Panic "index out of range".

Definition slice_from {A : Type} (l : list A) (lo : nat) : outcome (list A) :=
  if Nat.leb lo (length l) then Done (skipn lo l)
  else Panic "slice bounds out of range".

(** ** Package strconv *)

(** The width of [int] and [uint], which depends on the platform. *)
Inductive arch : Type := arch32 | arch64.

Module strconv.

Definition IntSize (a : arch) : Z :=
  match a with arch32 => 32 | arch64 => 64 end.

Definition maxUint64 : Z := 2 ^ 64 - 1.

Definition uint64 (z : Z) : Z := z mod 2 ^ 64.

(** Two's complement reading of the low [w] bits. *)
Definition signed (w z : Z) : Z := (z + 2 ^ (w - 1)) mod 2 ^ w - 2 ^ (w - 1).

Definition int64 (z : Z) : Z := signed 64 z.

Definition lower (c : Z) : Z := Z.lor c (byte_of "x" - byte_of "X").

Definition syntaxError (fn : string) (s : str) : error := Some (NumError fn s ErrSyntax).
Definition rangeError (fn : string) (s : str) : error := Some (NumError fn s ErrRange).
Definition baseError (fn : string) (s : str) : error := Some (NumError fn s ErrBase).
Definition bitSizeError (fn : string) (s : str) : error := Some (NumError fn s ErrBitSize).

(** The value of one digit, if the byte is a digit or a letter. *)
Definition digit (c : Z) : option Z :=
  if (byte_of "0" <=? c) && (c <=? byte_of "9") then Some (c - byte_of "0")
  else if (byte_of "a" <=? lower c) && (lower c <=? byte_of "z")
       then Some (lower c - byte_of "a" + 10)
       else None.

(** The digit loop of [ParseUint]: [n] is the value read so far. *)
Fixpoint accumulate (s0 : str) (base cutoff maxVal : Z) (cs : str) (n : Z) : Z * error :=
  match cs with
  | [] => (n, None)
  | c :: cs' =>
      match digit (byte_of c) with
      | None => (0, syntaxError "ParseUint" s0)
      | Some d =>
          if d >=? base then (0, syntaxError "ParseUint" s0)
          else if n >=? cutoff then (maxVal, rangeError "ParseUint" s0)
          else
            let n := uint64 (n * base) in
            let n1 := uint64 (n + d) in
            if (n1 <? n) || (n1 >? maxVal) then (maxVal, rangeError "ParseUint" s0)
            else accumulate s0 base cutoff maxVal cs' n1
      end
  end.

(** [ParseUint] for an explicit base, 2 to 36.  The program passes 16 and 10
    only; base 0, which asks for the base to be read off the prefix of the
    string, is outside this model and is answered like any other base out
    of range. *)
Definition ParseUint (a : arch) (s : str) (base bitSize : Z) : Z * error :=
  match s with
  | [] => (0, syntaxError "ParseUint" s)
  | _ :: _ =>
      if negb ((2 <=? base) && (base <=? 36)) then (0, baseError "ParseUint" s)
      else
        let bitSize := if bitSize =? 0 then IntSize a else bitSize in
        if (bitSize <? 0) || (bitSize >? 64) then (0, bitSizeError "ParseUint" s)
        else
          let cutoff := maxUint64 / base + 1 in
          let maxVal := uint64 (uint64 (Z.shiftl 1 bitSize) - 1) in
          accumulate s base cutoff maxVal s 0
  end.

Definition is_error (e : error) : bool :=
  match e with
  | Some _ => true
  | None => false
  end.

Definition is_range (e : error) : bool :=
  match e with
  | Some (NumError _ _ ErrRange) => true
  | _ => false
  end.

Definition renamed (fn : string) (s0 : str) (e : error) : error :=
  match e with
  | Some (NumError _ _ k) => Some (NumError fn s0 k)
  | other => other
  end.

Definition ParseInt (a : arch) (s : str) (base bitSize : Z) : Z * error :=
  match s with
  | [] => (0, syntaxError "ParseInt" s)
  | c :: s' =>
      let s0 := s in
      let '(neg, s) :=
        if ascii_eqb c "+" then (false, s')
        else if ascii_eqb c "-" then (true, s')
        else (false, s) in
      let '(un, err) := ParseUint a s base bitSize in
      if is_error err && negb (is_range err)
      then (0, renamed "ParseInt" s0 err)
      else
        let bitSize := if bitSize =? 0 then IntSize a else bitSize in
        let cutoff := uint64 (Z.shiftl 1 (bitSize - 1)) in
        if negb neg && (un >=? cutoff)
        then (int64 (cutoff - 1), rangeError "ParseInt" s0)
        else if neg && (un >? cutoff)
        then (int64 (- int64 cutoff), rangeError "ParseInt" s0)
        else
          let n := int64 un in
          (if neg then int64 (- n) else n, None)
  end.

(** [Atoi s] is [ParseInt s 10 0] converted to [int]; errors name [Atoi]. *)
Definition Atoi (a : arch) (s : str) : Z * error :=
  let '(i64, err) := ParseInt a s 10 0 in
  (signed (IntSize a) i64,
   match err with
   | Some (NumError _ num e) => Some (NumError "Atoi" num e)
   | other => other
   end).

End strconv.

(** The conversion to [int]; [int] arithmetic wraps around. *)
Definition int (a : arch) (z : Z) : Z := strconv.signed (strconv.IntSize a) z.

(** ** Package strings *)

Module strings.

Fixpoint TrimLeft (s cutset : str) : str :=
  match s with
  | [] => []
  | c :: s' => if existsb (ascii_eqb c) cutset then TrimLeft s' cutset else s
  end.

Fixpoint Join (elems : list str) (sep : str) : str :=
  match elems with
  | [] => []
  | [e] => e
  | e :: elems' => e ++ sep ++ Join elems' sep
  end.

End strings.

(** ** The hex colour parser *)

Definition uint8 (z : Z) : Z := z mod 2 ^ 8.

(** [color.RGBA], four 8-bit channels. *)
Record RGBA : Type := mkRGBA { R : Z; G : Z; B : Z; A : Z }.

(** [Hex] embeds the interface [color.Color], nil in the zero value, and
    carries the canonical digits (named [Name] in the first revision and
    [hex] in the second). *)
Record Hex : Type := mkHex { Color : option RGBA; Name : str }.

Definition zeroHex : Hex := mkHex None [].

(** The first loop of [parseHex]: the submatches of the first pattern that
    yields four of them, else those of the last pattern tried. *)
Fixpoint findHexParts (rs : list Regexp) (hexParts : list str) (s : str) : list str :=
  match rs with
  | [] => hexParts
  | r :: rs' =>
      let hexParts := FindStringSubmatch r s in
      if Nat.eqb (length hexParts) 4 then hexParts
      else findHexParts rs' hexParts s
  end.

(** A group of one digit is doubled. *)
Definition doubled (s : str) : str :=
  if Nat.eqb (length s) 1 then s ++ s else s.

(** The second loop of [parseHex], at index [i] over the groups left. *)
Fixpoint fillParts (a : arch) (i : nat) (parts : list str)
    (ints : list Z) (strs : list str) : outcome (list Z * list str) :=
  match parts with
  | [] => Done (ints, strs)
  | s :: parts' =>
      let s := doubled s in
      let '(v, _) := strconv.ParseInt a s 16 0 in
      ints <- store ints i (uint8 v) ;;
      strs <- store strs i s ;;
      fillParts a (S i) parts' ints strs
  end.

Definition parseHex (a : arch) (s : str) : outcome (Hex * error) :=
  let hexParts := findHexParts colorRegex [] s in
  if negb (Nat.eqb (length hexParts) 4)
  then Done (zeroHex, errors.New "parse: not a hex color")
  else
    let ints := repeat 0 3 in
    let strs := repeat ([] : str) 3 in
    groups <- slice_from hexParts 1 ;;
    filled <- fillParts a 0 groups ints strs ;;
    let '(ints, strs) := filled in
    r <- index ints 0 ;;
    g <- index ints 1 ;;
    b <- index ints 2 ;;
    Done (mkHex (Some (mkRGBA r g b 255)) (strings.Join strs []), None).

(** ** Package image

    A raster is its bounds and its pixels, row by row.  The dimensions are
    taken to be small enough for the raster to be allocated. *)

Record Size : Type := mkSize { Width : Z; Height : Z }.

Definition zeroSize : Size := mkSize 0 0.

Module image.

Record Rectangle : Type := mkRectangle { MinX : Z; MinY : Z; MaxX : Z; MaxY : Z }.

(** [Rect] swaps the coordinates where needed for a well-formed rectangle. *)
Definition Rect (x0 y0 x1 y1 : Z) : Rectangle :=
  mkRectangle (Z.min x0 x1) (Z.min y0 y1) (Z.max x0 x1) (Z.max y0 y1).

Definition Dx (r : Rectangle) : Z := MaxX r - MinX r.
Definition Dy (r : Rectangle) : Z := MaxY r - MinY r.

Record Image : Type := mkImage { Bounds : Rectangle; Pix : list RGBA }.

Definition NewRGBA (r : Rectangle) : Image :=
  mkImage r (repeat (mkRGBA 0 0 0 0) (Z.to_nat (Dx r * Dy r))).

Definition inside (r : Rectangle) (x y : Z) : bool :=
  (MinX r <=? x) && (x <? MaxX r) && (MinY r <=? y) && (y <? MaxY r).

(** [Set] leaves the image alone when the point is outside its bounds. *)
Definition Set_ (img : Image) (x y : Z) (c : RGBA) : Image :=
  let r := Bounds img in
  if inside r x y
  then mkImage r (replace (Pix img) (Z.to_nat ((y - MinY r) * Dx r + (x - MinX r))) c)
  else img.

End image.

(** ** Package os: the files of the working directory and standard output *)

Module os.

Inductive node : Type :=
| Regular (writable : bool) (data : list Byte.byte)
| Directory.

(** What the program prints, one constructor per format string. *)
Inductive event : Type :=
| Skipping (hex : str) (err : error_value)
| Generated (count : Z)
| Mapping (rawHex filename : str)
| Dimensions (width height : Z)
| ErrorLine (err : error_value)
| ErrorText (template : string) (args : list str)
| Usage
| Fatal (err : error_value).

Record World : Type := mkWorld {
  files : str -> option node;
  cwd_writable : bool;
  stdout : list event
}.

(** An open file: its name and the offset of the next write. *)
Record File : Type := mkFile { fname : str; offset : nat }.

Definition O_WRONLY : Z := 1.
Definition O_CREATE : Z := 64.
Definition O_TRUNC : Z := 512.

Definition has (flag bit : Z) : bool := negb (Z.land flag bit =? 0).

Fixpoint str_eqb (s1 s2 : str) : bool :=
  match s1, s2 with
  | [], [] => true
  | c1 :: s1', c2 :: s2' => ascii_eqb c1 c2 && str_eqb s1' s2'
  | _, _ => false
  end.

Definition put (w : World) (name : str) (n : node) : World :=
  mkWorld (fun name' => if str_eqb name' name then Some n else files w name')
          (cwd_writable w) (stdout w).

Definition print (e : event) (w : World) : World :=
  mkWorld (files w) (cwd_writable w) (stdout w ++ [e]).

(** [OpenFile] for writing returns the open file or the error, never both.
    An existing file keeps its data unless [O_TRUNC] is given; a missing one
    is created empty when [O_CREATE] is given and the directory allows it. *)
Definition OpenFile (w : World) (name : str) (flag perm : Z) : World * (File + error_value) :=
  match files w name with
  | Some Directory => (w, inr (PathError "open" name))
  | Some (Regular writable data) =>
      if has flag O_WRONLY && negb writable
      then (w, inr (PathError "open" name))
      else
        let w := if has flag O_TRUNC then put w name (Regular writable []) else w in
        (w, inl (mkFile name 0))
  | None =>
      if has flag O_CREATE && cwd_writable w
      then (put w name (Regular (Z.testbit perm 7) []), inl (mkFile name 0))
      else (w, inr (PathError "open" name))
  end.

(** A write replaces the bytes from the offset on and extends the file when
    it runs past the end. *)
Definition Write (w : World) (f : File) (bs : list Byte.byte) : World * File :=
  match files w (fname f) with
  | Some (Regular writable data) =>
      (put w (fname f)
         (Regular writable
            (firstn (offset f) data ++ bs ++ skipn (offset f + length bs) data)),
       mkFile (fname f) (offset f + length bs))
  | _ => (w, f)
  end.

End os.

Import os.

(** ** The programs

    Both revisions are modelled over an encoder [encode], standing for
    [png.Encode]: the bytes it hands to the writer and the error it returns.
    Closing an [*os.File] the program has opened is taken to succeed. *)

Definition io (A : Type) : Type := World -> World * outcome A.

Definition ret {A : Type} (a : A) : io A := fun w => (w, Done a).

Definition exit {A : Type} (code : Z) : io A := fun w => (w, Exit code).

Definition seq_io {A B : Type} (m : io A) (k : A -> io B) : io B :=
  fun w =>
    match m w with
    | (w', Done a) => k a w'
    | (w', Exit code) => (w', Exit code)
    | (w', Panic msg) => (w', Panic msg)
    end.

Notation "x <~ m ;; k" := (seq_io m (fun x => k))
  (at level 61, m at next level, right associativity).

Definition say (e : event) : io unit := fun w => (print e w, Done tt).

Definition pure {A : Type} (o : outcome A) : io A := fun w => (w, o).


(** An [io.ReadCloser] as the program uses it: the lines a [bufio.Scanner]
    splitting at line ends delivers from it (scanning stops at the end of the
    input, at a read error or at a line longer than the scanner's buffer),
    and what its [Close] returns. *)
Record ReadCloser : Type := mkReadCloser { Lines : list str; Close_ : error }.

Definition Encoder : Type := image.Image -> list Byte.byte * error.

(** The values a loop [for i := 0; i < n; i++] runs through. *)
Definition upto (n : Z) : list Z := map Z.of_nat (seq 0 (Z.to_nat n)).

(** The two nested loops that set every pixel. *)
Definition fillImage (img : image.Image) (width height : Z) (c : RGBA) : image.Image :=
  fold_left
    (fun img x => fold_left (fun img y => image.Set_ img x y c) (upto height) img)
    (upto width) img.

(** The colour a [Hex] sets a pixel to; the zero value has none. *)
Definition colorOf (c : Hex) : RGBA :=
  match Color c with
  | Some rgba => rgba
  | None => mkRGBA 0 0 0 0
  end.

Definition png_Encode (encode : Encoder) (f : File) (img : image.Image) : io error :=
  fun w =>
    let '(bs, err) := encode img in
    let '(w', _) := Write w f bs in
    (w', Done err).

(** The call [os.OpenFile(name, os.O_WRONLY|os.O_CREATE, 0644)] of both
    revisions; 0644 is 420. *)
Definition open_for_png (name : str) : io (File + error_value) :=
  fun w =>
    let '(w', r) := OpenFile w name (Z.lor O_WRONLY O_CREATE) 420 in
    (w', Done r).

Module First.

(** Line 19: anchored at both ends; each group is a digit 1-9 followed by
    any number of digits 0-9, with the letter x between the groups. *)
Definition sizeRegex : Regexp :=
  cat [BeginText;
       Capture 1 (Cat digit19 (Star digit09));
       Lit "x";
       Capture 2 (Cat digit19 (Star digit09))] EndText.

Definition parseSize (a : arch) (s : str) : outcome (Size * error) :=
  let m := FindStringSubmatch sizeRegex s in
  if negb (Nat.eqb (length m) 3)
  then Done (zeroSize, errors.New "parse: invalid size")
  else
    m1 <- index m 1 ;;
    let '(w, err) := strconv.Atoi a m1 in
    match err with
    | Some e => Done (zeroSize, Some e)
    | None =>
        m2 <- index m 2 ;;
        let '(h, err) := strconv.Atoi a m2 in
        match err with
        | Some e => Done (zeroSize, Some e)
        | None => Done (mkSize w h, None)
        end
    end.

(** [Close] ends the process when closing fails. *)
Definition Close (result : error) : io unit :=
  match result with
  | Some e => _ <~ say (Fatal e) ;; exit 1
  | None => ret tt
  end.

Definition generateImage (a : arch) (encode : Encoder) (hex : str) (s : Size) : io error :=
  r <~ pure (parseHex a hex) ;;
  let '(c, err) := r in
  match err with
  | Some e => ret (Some e)
  | None =>
      let img := fillImage (image.NewRGBA (image.Rect 0 0 (Width s) (Height s)))
                   (Width s) (Height s) (colorOf c) in
      r <~ open_for_png (Name c ++ go ".png") ;;
      match r with
      | inr e => ret (Some e)
      | inl f =>
          err <~ png_Encode encode f img ;;
          _ <~ Close None ;;
          ret err
      end
  end.

(** The scanner loop of [main], over the lines the scanner delivers. *)
Fixpoint scanLoop (a : arch) (encode : Encoder) (s : Size) (lines : list str)
    (count : Z) : io Z :=
  match lines with
  | [] => ret count
  | text :: lines' =>
      let hex := strings.TrimLeft text (go "#") in
      err <~ generateImage a encode hex s ;;
      match err with
      | Some e =>
          _ <~ say (Skipping hex e) ;;
          scanLoop a encode s lines' count
      | None => scanLoop a encode s lines' (int a (count + 1))
      end
  end.

(** [main] once the flags are read: [size] is the value of the size flag and
    [got] what [getInput] returned.  The deferred [Close] runs when [main]
    returns or panics, not when [os.Exit] ends the process. *)
Definition main (a : arch) (encode : Encoder) (size : str)
    (got : ReadCloser * error) : io unit :=
  let '(input, err) := got in
  match err with
  | Some e => _ <~ say (ErrorLine e) ;; _ <~ say Usage ;; exit 1
  | None =>
      r <~ pure (parseSize a size) ;;
      let '(s, err) := r in
      match err with
      | Some e => _ <~ say (ErrorLine e) ;; _ <~ say Usage ;; exit 1
      | None =>
          fun w =>
            match (count <~ scanLoop a encode s (Lines input) 0 ;;
                   say (Generated count)) w with
            | (w', Done _) => Close (Close_ input) w'
            | (w', Panic msg) => (_ <~ Close (Close_ input) ;; pure (Panic msg)) w'
            | (w', Exit code) => (w', Exit code)
            end
      end
  end.

End First.

Module Second.

(** Line 176: the same groups without the anchors. *)
Definition sizeRegex : Regexp :=
  cat [Capture 1 (Cat digit19 (Star digit09));
       Lit "x"] (Capture 2 (Cat digit19 (Star digit09))).

Definition exitf {A : Type} (template : string) (args : list str) : io A :=
  _ <~ say (ErrorText template args) ;; exit 1.

(** Lines 194 to 204 of [main]: the width and the height read off the size
    flag. *)
Definition mainSize (a : arch) (size : str) : io (Z * Z) :=
  let s := FindStringSubmatch sizeRegex size in
  if negb (Nat.eqb (length s) 3)
  then exitf "Failed to parse size %s\n" [size]
  else
    s1 <~ pure (index s 1) ;;
    let '(width, err) := strconv.Atoi a s1 in
    match err with
    | Some _ => exitf "Failed to parse width %s" [s1]
    | None =>
        s2 <~ pure (index s 2) ;;
        let '(height, err) := strconv.Atoi a s2 in
        match err with
        | Some _ => exitf "Failed to parse height %s" [s1]
        | None => ret (width, height)
        end
    end.

Definition generateImage (a : arch) (encode : Encoder) (rawHex : str)
    (width height : Z) : io unit :=
  let hex := strings.TrimLeft rawHex (go "#") in
  r <~ pure (parseHex a hex) ;;
  let '(c, err) := r in
  match err with
  | Some e => say (Skipping hex e)
  | None =>
      let img := fillImage (image.NewRGBA (image.Rect 0 0 width height)) width height (colorOf c) in
      let filename := Name c ++ go ".png" in
      r <~ open_for_png filename ;;
      match r with
      | inr e => say (Skipping hex e)
      | inl f =>
          _ <~ png_Encode encode f img ;;
          say (Mapping rawHex filename)
      end
  end.

Fixpoint generateImages (a : arch) (encode : Encoder) (lines : list str)
    (width height : Z) : io unit :=
  match lines with
  | [] => ret tt
  | text :: lines' =>
      _ <~ generateImage a encode text width height ;;
      generateImages a encode lines' width height
  end.

Definition main (a : arch) (encode : Encoder) (size : str)
    (got : ReadCloser * error) : io unit :=
  let '(input, err) := got in
  match err with
  | Some e => _ <~ say Usage ;; _ <~ say (ErrorLine e) ;; exit 1
  | None =>
      (* the result of the deferred input.Close() is dropped *)
      d <~ mainSize a size ;;
      let '(width, height) := d in
      _ <~ say (Dimensions width height) ;;
      generateImages a encode (Lines input) width height
  end.

End Second.

(** * Vocabulary of the properties *)

(** *** Characters and colours *)

Definition is_lower_hex (c : ascii) : bool :=
  between "0" "9" c || between "a" "f" c.

Definition is_upper (c : ascii) : bool := between "A" "Z" c.

(** The value of a hexadecimal digit. *)
Definition hexval (c : ascii) : Z :=
  if between "0" "9" c then byte_of c - 48 else byte_of c - 87.

(** The base-16 reading of a pair of digits. *)
Definition hexpair (c1 c2 : ascii) : Z := 16 * hexval c1 + hexval c2.

Definition hex6_groups (s : str) : list str :=
  match s with
  | [c1; c2; c3; c4; c5; c6] =>
      if forallb is_lower_hex s then [s; [c1; c2]; [c3; c4]; [c5; c6]] else []
  | _ => []
  end.

Definition hex3_groups (s : str) : list str :=
  match s with
  | [c1; c2; c3] =>
      if forallb is_lower_hex s then [s; [c1]; [c2]; [c3]] else []
  | _ => []
  end.

Definition colorRegex6 : Regexp := nth 0 colorRegex BeginText.
Definition colorRegex3 : Regexp := nth 1 colorRegex BeginText.

(** A string of [n] lowercase hexadecimal digits. *)
Definition lower_hex (n : nat) (s : str) : Prop :=
  length s = n /\ Forall (fun c => is_lower_hex c = true) s.

(** What [parseHex] returns on six digits and on three. *)
Definition hex6_color (s : str) : Hex :=
  match s with
  | [c1; c2; c3; c4; c5; c6] =>
      mkHex (Some (mkRGBA (hexpair c1 c2) (hexpair c3 c4) (hexpair c5 c6) 255)) s
  | _ => zeroHex
  end.

Definition hex3_color (s : str) : Hex :=
  match s with
  | [c1; c2; c3] =>
      mkHex (Some (mkRGBA (hexpair c1 c1) (hexpair c2 c2) (hexpair c3 c3) 255))
            [c1; c1; c2; c2; c3; c3]
  | _ => zeroHex
  end.

Definition lower_hexb (n : nat) (s : str) : bool :=
  Nat.eqb (length s) n && forallb is_lower_hex s.

(** *** The greedy star over a character class *)

(** The longest run of class characters that lets [k] succeed. *)
Fixpoint greedy {T : Type} (ranges : list (ascii * ascii)) (k : cont T)
    (pos : nat) (s : str) (cs : caps) : option T :=
  match s with
  | c :: s' =>
      if in_class ranges c
      then match greedy ranges k (S pos) s' cs with
           | Some t => Some t
           | None => k pos s cs
           end
      else k pos s cs
  | [] => k pos s cs
  end.

(** The text stops being in the class. *)
Definition stops (ranges : list (ascii * ascii)) (s : str) : Prop :=
  match s with
  | [] => True
  | c :: _ => in_class ranges c = false
  end.

Fixpoint class_prefix (ranges : list (ascii * ascii)) (s : str) : str :=
  match s with
  | c :: s' => if in_class ranges c then c :: class_prefix ranges s' else []
  | [] => []
  end.

Fixpoint class_rest (ranges : list (ascii * ascii)) (s : str) : str :=
  match s with
  | c :: s' => if in_class ranges c then class_rest ranges s' else s
  | [] => []
  end.

(** *** Sizes *)

Definition is_digit19 (c : ascii) : Prop := in_class [("1", "9")]%char c = true.
Definition is_digit09 (c : ascii) : Prop := in_class [("0", "9")]%char c = true.

(** A positive number without a leading zero. *)
Definition positive_digits (s : str) : Prop :=
  match s with
  | [] => False
  | c :: ds => is_digit19 c /\ Forall is_digit09 ds
  end.

(** One group of a size pattern, with the rest of the pattern as [k]. *)
Definition number (i : nat) : Regexp :=
  Capture i (Cat (Class [("1", "9")]%char) (Star (Class [("0", "9")]%char))).

Definition digits09 : str -> str := class_prefix [("0", "9")]%char.
Definition after09 : str -> str := class_rest [("0", "9")]%char.

(** The leftmost way to read a width, the letter x and a height off the
    start of [s], with what is left after the height. *)
Definition size_split (s : str) : option (str * str * str) :=
  match s with
  | c1 :: s1 =>
      if in_class [("1", "9")]%char c1 then
        match after09 s1 with
        | x :: c2 :: s2 =>
            if ascii_eqb "x" x && in_class [("1", "9")]%char c2
            then Some (c1 :: digits09 s1, c2 :: digits09 s2, after09 s2)
            else None
        | _ => None
        end
      else None
  | [] => None
  end.

Definition is_hex (c : ascii) : bool := is_lower_hex c || between "A" "F" c.

Definition has_upper (s : str) : Prop := exists c, In c s /\ is_upper c = true.

Definition has_non_hex (s : str) : Prop := exists c, In c s /\ is_hex c = false.

(** *** Worlds and encoders for examples *)

(** A working directory without files and nothing printed yet. *)
Definition emptyWorld : World := mkWorld (fun _ => None) true [].

(** The raster both revisions hand to the encoder. *)
Definition raster (c : Hex) (width height : Z) : image.Image :=
  fillImage (image.NewRGBA (image.Rect 0 0 width height)) width height (colorOf c).

(** A stand-in encoder for examples: it writes the eight bytes of the PNG
    signature and nothing else. *)
Definition signatureOnly : Encoder :=
  fun _ => ([Byte.x89; Byte.x50; Byte.x4e; Byte.x47;
             Byte.x0d; Byte.x0a; Byte.x1a; Byte.x0a], None).

(** The bytes the encoder writes for a colour and a size. *)
Definition encoded (encode : Encoder) (c : Hex) (s : Size) : list Byte.byte :=
  fst (encode (raster c (Width s) (Height s))).

(** A directory that holds "ff0000.png" with ten bytes, and a run for the
    line "f00" whose encoder writes eight: the last two old bytes stay. *)
Definition staleWorld : World :=
  put emptyWorld (go "ff0000.png")
    (Regular true [Byte.x89; Byte.x50; Byte.x4e; Byte.x47; Byte.x0d;
                   Byte.x0a; Byte.x1a; Byte.x0a; Byte.x41; Byte.x42]).

(** *** The results of the line loop *)




(** *** Decimal numbers *)

(** The value of a string of decimal digits, read after the value [n]. *)
Definition decimal_from (n : Z) (s : str) : Z :=
  fold_left (fun n c => n * 10 + (byte_of c - 48)) s n.

Definition decimal (s : str) : Z := decimal_from 0 s.

(** The largest [int]. *)
Definition maxInt (a : arch) : Z := 2 ^ (strconv.IntSize a - 1) - 1.

(** The first place in [s], from the left, where a width, the letter x and
    a height can be read. *)
Fixpoint first_size (s : str) : option (str * str) :=
  match size_split s with
  | Some (w, h, _) => Some (w, h)
  | None =>
      match s with
      | [] => None
      | _ :: s' => first_size s'
      end
  end.

(** *** The image file *)


(** What a directory entry becomes when the program opens it as the image
    file and the encoder writes [bs]: an entry that cannot be opened stays
    as it is. *)
Definition rewritten (entry : option node) (dir_writable : bool)
    (bs : list Byte.byte) : option node :=
  match entry with
  | Some (Regular true old) => Some (Regular true (bs ++ skipn (length bs) old))
  | None => if dir_writable then Some (Regular true bs) else None
  | other => other
  end.

(** Whether the program can open the entry as the image file. *)
Definition openable (entry : option node) (dir_writable : bool) : bool :=
  match entry with
  | Some (Regular writable _) => writable
  | Some Directory => false
  | None => dir_writable
  end.

(** *** The input source (first revision, lines 139 to 157) *)

(** [os.FileInfo] as far as [getInput] looks at it. *)
Record FileInfo : Type := mkFileInfo { FileMode : Z; FileSize : Z }.

Definition ModeCharDevice : Z := Z.shiftl 1 21.

(** What the platform answers to [getInput]: the result of [os.Open] on a
    name, the result of [os.Stdin.Stat], and the lines standard input
    holds. *)
Record Platform : Type := mkPlatform {
  Open : str -> ReadCloser + error_value;
  StdinStat : FileInfo + error_value;
  StdinLines : list str
}.

(** The nil [io.ReadCloser] that comes with an error. *)
Definition nilReadCloser : ReadCloser := mkReadCloser [] None.

(** [ioutil.NopCloser]: a reader whose [Close] does nothing and returns
    nil. *)
Definition NopCloser (lines : list str) : ReadCloser := mkReadCloser lines None.

Definition getInput (p : Platform) (file : str) : ReadCloser * error :=
  match file with
  | _ :: _ =>
      match Open p file with
      | inr e => (nilReadCloser, Some e)
      | inl f => (f, None)
      end
  | [] =>
      match StdinStat p with
      | inr e => (nilReadCloser, Some e)
      | inl info =>
          if negb (Z.land (FileMode info) ModeCharDevice =? 0) || (FileSize info <=? 0)
          then (nilReadCloser, errors.New "Pipe input is invalid")
          else (NopCloser (StdinLines p), None)
      end
  end.




(** A terminal on standard input. *)
Definition terminalPlatform : Platform :=
  mkPlatform (fun name => inr (PathError "open" name))
             (inl (mkFileInfo ModeCharDevice 0)) [].

(** * Properties *)

(** ** The models on small inputs *)

Example FindStringSubmatch_leftmost :
  FindStringSubmatch Second.sizeRegex (go "05x5") = [go "5x5"; go "5"; go "5"].
Proof. reflexivity. Qed.

Example FindStringSubmatch_greedy :
  FindStringSubmatch Second.sizeRegex (go "12x34x56") = [go "12x34"; go "12"; go "34"].
Proof. reflexivity. Qed.

Example FindStringSubmatch_no_match :
  FindStringSubmatch First.sizeRegex (go "12x34x56") = [].
Proof. reflexivity. Qed.

Example ParseInt_upper_case :
  strconv.ParseInt arch64 (go "FF") 16 0 = (255, None).
Proof. reflexivity. Qed.

Example ParseInt_syntax :
  strconv.ParseInt arch64 (go "fg") 16 0
  = (0, Some (NumError "ParseInt" (go "fg") ErrSyntax)).
Proof. reflexivity. Qed.

Example Atoi_range :
  strconv.Atoi arch32 (go "2147483648")
  = (2147483647, Some (NumError "Atoi" (go "2147483648") ErrRange)).
Proof. reflexivity. Qed.

Example parseSize_range :
  First.parseSize arch32 (go "1x2147483648")
  = Done (zeroSize, Some (NumError "Atoi" (go "2147483648") ErrRange)).
Proof. reflexivity. Qed.

Example raster_flat :
  raster (mkHex (Some (mkRGBA 255 0 0 255)) (go "ff0000")) 2 2
  = image.mkImage (image.Rect 0 0 2 2) (repeat (mkRGBA 255 0 0 255) 4).
Proof. reflexivity. Qed.

(** ** Characters *)

Lemma in_class_hexdigit (c : ascii) :
  in_class [("0", "9"); ("a", "f")]%char c = is_lower_hex c.
Proof.
  unfold in_class, is_lower_hex; simpl. now rewrite orb_false_r.
Qed.

Lemma is_lower_hex_cases (c : ascii) :
  is_lower_hex c = true -> In c (go "0123456789abcdef").
Proof.
  destruct c as [b0 b1 b2 b3 b4 b5 b6 b7].
  destruct b0, b1, b2, b3, b4, b5, b6, b7; intro H;
    solve [ discriminate H | vm_compute; auto 20 ].
Qed.

Lemma hexval_range (c : ascii) :
  is_lower_hex c = true -> 0 <= hexval c <= 15.
Proof.
  intro H. apply is_lower_hex_cases in H. simpl in H.
  repeat (destruct H as [<- | H]; [ vm_compute; split; discriminate | ]).
  contradiction.
Qed.

Lemma hexpair_range (c1 c2 : ascii) :
  is_lower_hex c1 = true -> is_lower_hex c2 = true ->
  0 <= hexpair c1 c2 <= 255.
Proof.
  intros H1 H2. apply hexval_range in H1, H2. unfold hexpair. lia.
Qed.

Lemma uint8_hexpair (c1 c2 : ascii) :
  is_lower_hex c1 = true -> is_lower_hex c2 = true ->
  uint8 (hexpair c1 c2) = hexpair c1 c2.
Proof.
  intros H1 H2. pose proof (hexpair_range _ _ H1 H2).
  unfold uint8. apply Z.mod_small. change (2 ^ 8) with 256. lia.
Qed.

Lemma ParseInt_hex_pair (a : arch) (c1 c2 : ascii) :
  is_lower_hex c1 = true -> is_lower_hex c2 = true ->
  strconv.ParseInt a [c1; c2] 16 0 = (hexpair c1 c2, None).
Proof.
  intros H1 H2.
  apply is_lower_hex_cases in H1. apply is_lower_hex_cases in H2.
  simpl in H1, H2.
  destruct a;
    repeat (destruct H1 as [<- | H1]; [ | ]);
    try contradiction;
    repeat (destruct H2 as [<- | H2]; [ | ]);
    try contradiction; vm_compute; reflexivity.
Qed.

(** ** Anchored patterns match at the start of the text only *)

Lemma search_BeginText (r : Regexp) (s : str) (pos : nat) :
  search (Cat BeginText r) (S pos) s = None.
Proof.
  revert pos; induction s as [| c s IH]; intro pos; simpl; auto.
Qed.

Lemma FindStringSubmatch_BeginText (r : Regexp) (s : str) :
  FindStringSubmatch (Cat BeginText r) s =
  match match_at (Cat BeginText r) 0 s with
  | Some m => m
  | None => []
  end.
Proof.
  unfold FindStringSubmatch.
  destruct s as [| c s]; simpl search.
  - now destruct (match_at _ _ _).
  - destruct (match_at _ _ _); auto. now rewrite search_BeginText.
Qed.

(** ** What the colour patterns match *)

Lemma colorRegex6_submatch (s : str) :
  FindStringSubmatch colorRegex6 s = hex6_groups s.
Proof.
  unfold colorRegex6, colorRegex, nth, cat, hexdigit.
  rewrite FindStringSubmatch_BeginText.
  unfold match_at, hex6_groups.
  destruct s as [| c1 [| c2 [| c3 [| c4 [| c5 [| c6 [| c7 s]]]]]]];
    cbn -[in_class]; rewrite ?in_class_hexdigit;
    repeat match goal with
           | |- context [is_lower_hex ?c] => destruct (is_lower_hex c)
           end; cbn; try reflexivity.
Qed.

Lemma colorRegex3_submatch (s : str) :
  FindStringSubmatch colorRegex3 s = hex3_groups s.
Proof.
  unfold colorRegex3, colorRegex, nth, cat, hexdigit.
  rewrite FindStringSubmatch_BeginText.
  unfold match_at, hex3_groups.
  destruct s as [| c1 [| c2 [| c3 [| c4 s]]]];
    cbn -[in_class]; rewrite ?in_class_hexdigit;
    repeat match goal with
           | |- context [is_lower_hex ?c] => destruct (is_lower_hex c)
           end; cbn; try reflexivity.
Qed.

Lemma hex6_groups_length (s : str) :
  length (hex6_groups s) = 4%nat \/ hex6_groups s = [].
Proof.
  unfold hex6_groups.
  destruct s as [| c1 [| c2 [| c3 [| c4 [| c5 [| c6 [| c7 s]]]]]]]; auto.
  destruct (forallb _ _); auto.
Qed.

Lemma hex3_groups_length (s : str) :
  length (hex3_groups s) = 4%nat \/ hex3_groups s = [].
Proof.
  unfold hex3_groups.
  destruct s as [| c1 [| c2 [| c3 [| c4 s]]]]; auto.
  destruct (forallb _ _); auto.
Qed.

(** The first loop of [parseHex] over the two patterns. *)
Lemma findHexParts_colorRegex (s : str) :
  findHexParts colorRegex [] s =
  if Nat.eqb (length (hex6_groups s)) 4 then hex6_groups s else hex3_groups s.
Proof.
  unfold colorRegex at 1.
  change (findHexParts _ [] s) with
    (let h6 := FindStringSubmatch colorRegex6 s in
     if Nat.eqb (length h6) 4 then h6
     else let h3 := FindStringSubmatch colorRegex3 s in
          if Nat.eqb (length h3) 4 then h3 else h3).
  cbv zeta. rewrite colorRegex6_submatch, colorRegex3_submatch.
  now destruct (Nat.eqb (length (hex3_groups s)) 4).
Qed.

Lemma lower_hex_forallb (n : nat) (s : str) :
  lower_hex n s -> forallb is_lower_hex s = true.
Proof.
  intros [_ H]. apply forallb_forall. now apply Forall_forall.
Qed.

Lemma parseHex_six (a : arch) (s : str) :
  lower_hex 6 s -> parseHex a s = Done (hex6_color s, None).
Proof.
  intros H. pose proof (lower_hex_forallb _ _ H) as Hall. destruct H as [Hlen H].
  destruct s as [| c1 [| c2 [| c3 [| c4 [| c5 [| c6 [| c7 s]]]]]]]; try discriminate Hlen.
  unfold parseHex. rewrite findHexParts_colorRegex.
  unfold hex6_groups. rewrite Hall.
  repeat match goal with
         | H : Forall _ (_ :: _) |- _ => inversion_clear H
         end.
  cbn -[strconv.ParseInt].
  rewrite !ParseInt_hex_pair by assumption.
  cbn. rewrite !uint8_hexpair by assumption.
  reflexivity.
Qed.

Lemma parseHex_three (a : arch) (s : str) :
  lower_hex 3 s -> parseHex a s = Done (hex3_color s, None).
Proof.
  intros H. pose proof (lower_hex_forallb _ _ H) as Hall. destruct H as [Hlen H].
  destruct s as [| c1 [| c2 [| c3 [| c4 s]]]]; try discriminate Hlen.
  unfold parseHex. rewrite findHexParts_colorRegex.
  unfold hex6_groups, hex3_groups. rewrite Hall.
  repeat match goal with
         | H : Forall _ (_ :: _) |- _ => inversion_clear H
         end.
  cbn -[strconv.ParseInt].
  rewrite !ParseInt_hex_pair by assumption.
  cbn. rewrite !uint8_hexpair by assumption.
  reflexivity.
Qed.

Lemma lower_hexb_spec (n : nat) (s : str) :
  lower_hexb n s = true <-> lower_hex n s.
Proof.
  unfold lower_hexb, lower_hex.
  rewrite andb_true_iff, Nat.eqb_eq, forallb_forall, Forall_forall. tauto.
Qed.

Lemma hex6_groups_nil (s : str) : ~ lower_hex 6 s -> hex6_groups s = [].
Proof.
  intro H. rewrite <- lower_hexb_spec in H. unfold lower_hexb in H.
  unfold hex6_groups.
  destruct s as [| c1 [| c2 [| c3 [| c4 [| c5 [| c6 [| c7 s]]]]]]]; auto.
  destruct (forallb _ _); auto. now elim H.
Qed.

Lemma hex3_groups_nil (s : str) : ~ lower_hex 3 s -> hex3_groups s = [].
Proof.
  intro H. rewrite <- lower_hexb_spec in H. unfold lower_hexb in H.
  unfold hex3_groups.
  destruct s as [| c1 [| c2 [| c3 [| c4 s]]]]; auto.
  destruct (forallb _ _); auto. now elim H.
Qed.

Lemma parseHex_neither (a : arch) (s : str) :
  ~ lower_hex 6 s -> ~ lower_hex 3 s ->
  parseHex a s = Done (zeroHex, errors.New "parse: not a hex color").
Proof.
  intros H6 H3. unfold parseHex. rewrite findHexParts_colorRegex.
  now rewrite (hex6_groups_nil _ H6), (hex3_groups_nil _ H3).
Qed.

(** Every string falls in one of the three cases. *)
Lemma parseHex_cases (a : arch) (s : str) :
  (lower_hex 6 s /\ parseHex a s = Done (hex6_color s, None)) \/
  (lower_hex 3 s /\ parseHex a s = Done (hex3_color s, None)) \/
  (~ lower_hex 6 s /\ ~ lower_hex 3 s /\
   parseHex a s = Done (zeroHex, errors.New "parse: not a hex color")).
Proof.
  destruct (lower_hexb 6 s) eqn:E6.
  - apply lower_hexb_spec in E6. left. split; auto using parseHex_six.
  - destruct (lower_hexb 3 s) eqn:E3.
    + apply lower_hexb_spec in E3. right; left. split; auto using parseHex_three.
    + right; right.
      assert (H6 : ~ lower_hex 6 s) by (rewrite <- lower_hexb_spec; congruence).
      assert (H3 : ~ lower_hex 3 s) by (rewrite <- lower_hexb_spec; congruence).
      auto using parseHex_neither.
Qed.

Lemma parseHex_success (a : arch) (s : str) (h : Hex) :
  parseHex a s = Done (h, None) ->
  (lower_hex 6 s /\ h = hex6_color s) \/ (lower_hex 3 s /\ h = hex3_color s).
Proof.
  intro H.
  destruct (parseHex_cases a s) as [[L E] | [[L E] | (_ & _ & E)]];
    rewrite E in H; try discriminate H; inversion H; auto.
Qed.

Lemma hash_is_not_hex (c : ascii) :
  is_lower_hex c = true -> ascii_eqb c "#" = false.
Proof.
  intro H. apply is_lower_hex_cases in H. simpl in H.
  repeat (destruct H as [<- | H]; [ reflexivity | ]). contradiction.
Qed.

Lemma TrimLeft_hash (n : nat) (ds line : str) :
  lower_hex (S n) ds -> line = ds \/ line = "#"%char :: ds ->
  strings.TrimLeft line (go "#") = ds.
Proof.
  intros [Hlen H] Hline.
  destruct ds as [| c ds]; [ discriminate Hlen | ].
  inversion_clear H as [| ? ? Hc _].
  assert (E : strings.TrimLeft (c :: ds) (go "#") = c :: ds).
  { simpl. now rewrite (hash_is_not_hex _ Hc). }
  destruct Hline as [-> | ->]; auto.
Qed.

(** ** The greedy star over a character class *)

Section Greedy.
Variable T : Type.
Variable ranges : list (ascii * ascii).

Let member (c : ascii) : Prop := in_class ranges c = true.

Lemma iterate_Class (fuel : nat) :
  forall (k : cont T) (pos : nat) (s : str) (cs : caps),
    (length s < fuel)%nat ->
    iterate (run (Class ranges)) k fuel pos s cs = greedy ranges k pos s cs.
Proof.
  induction fuel as [| fuel IH]; intros k pos s cs Hlen; [ lia | ].
  destruct s as [| c s]; simpl; auto.
  destruct (in_class ranges c); auto.
  assert (E : Nat.eqb (S pos) pos = false) by (apply Nat.eqb_neq; lia).
  simpl in E. rewrite E.
  specialize (IH k (S pos) s cs). simpl in IH, Hlen.
  rewrite IH by lia. reflexivity.
Qed.

Lemma run_Star_Class (k : cont T) (pos : nat) (s : str) (cs : caps) :
  run (Star (Class ranges)) pos s cs k = greedy ranges k pos s cs.
Proof.
  change (run (Star (Class ranges)) pos s cs k)
    with (iterate (run (Class ranges)) k (S (length s)) pos s cs).
  apply iterate_Class. lia.
Qed.

Lemma greedy_stops (k : cont T) (pos : nat) (s : str) (cs : caps) :
  stops ranges s -> greedy ranges k pos s cs = k pos s cs.
Proof.
  destruct s as [| c s]; simpl; auto. now intros ->.
Qed.

(** When [k] cannot go on from a class character, only the longest run
    counts. *)
Lemma greedy_exact (k : cont T) :
  (forall pos c s cs, member c -> k pos (c :: s) cs = None) ->
  forall ds rest pos cs,
    Forall member ds ->
    greedy ranges k pos (ds ++ rest) cs = greedy ranges k (pos + length ds)%nat rest cs.
Proof.
  intros Hk ds rest. induction ds as [| c ds IH]; intros pos cs F; simpl.
  - now rewrite Nat.add_0_r.
  - inversion_clear F as [| ? ? Hc F']. unfold member in Hc. rewrite Hc.
    rewrite IH by assumption.
    replace (S pos + length ds)%nat with (pos + S (length ds))%nat by lia.
    destruct (greedy ranges k _ rest cs) eqn:E; auto.
Qed.

(** The longest run is tried first. *)
Lemma greedy_first (k : cont T) (t : T) :
  forall ds rest pos cs,
    Forall member ds ->
    greedy ranges k (pos + length ds)%nat rest cs = Some t ->
    greedy ranges k pos (ds ++ rest) cs = Some t.
Proof.
  intros ds rest. induction ds as [| c ds IH]; intros pos cs F E; simpl.
  - now rewrite Nat.add_0_r in E.
  - inversion_clear F as [| ? ? Hc F']. unfold member in Hc. rewrite Hc.
    rewrite (IH (S pos) cs F'); auto.
    rewrite <- E. f_equal. simpl. lia.
Qed.

Lemma class_prefix_rest (s : str) : s = class_prefix ranges s ++ class_rest ranges s.
Proof.
  induction s as [| c s IH]; simpl; auto.
  destruct (in_class ranges c); simpl; congruence.
Qed.

Lemma class_prefix_member (s : str) : Forall member (class_prefix ranges s).
Proof.
  induction s as [| c s IH]; simpl; auto.
  destruct (in_class ranges c) eqn:E; auto.
Qed.

Lemma class_rest_stops (s : str) : stops ranges (class_rest ranges s).
Proof.
  induction s as [| c s IH]; simpl; auto.
  destruct (in_class ranges c) eqn:E; simpl; auto.
Qed.

Lemma greedy_longest (k : cont T) (pos : nat) (s : str) (cs : caps) :
  (forall pos c s cs, member c -> k pos (c :: s) cs = None) ->
  greedy ranges k pos s cs = k (pos + length (class_prefix ranges s))%nat (class_rest ranges s) cs.
Proof.
  intro Hk. rewrite (class_prefix_rest s) at 1.
  rewrite greedy_exact by auto using class_prefix_member.
  apply greedy_stops, class_rest_stops.
Qed.

Lemma greedy_longest_first (k : cont T) (t : T) (pos : nat) (s : str) (cs : caps) :
  k (pos + length (class_prefix ranges s))%nat (class_rest ranges s) cs = Some t ->
  greedy ranges k pos s cs = Some t.
Proof.
  intro E. rewrite (class_prefix_rest s) at 1.
  apply greedy_first; auto using class_prefix_member.
  now rewrite greedy_stops by apply class_rest_stops.
Qed.

End Greedy.

(** ** What the size patterns match *)

Lemma ascii_eqb_eq (a b : ascii) : ascii_eqb a b = true -> a = b.
Proof.
  unfold ascii_eqb, byte_of. intro H. apply Z.eqb_eq in H.
  apply N2Z.inj in H.
  rewrite <- (ascii_N_embedding a), <- (ascii_N_embedding b). now f_equal.
Qed.

Lemma digit09_cases (c : ascii) : is_digit09 c -> In c (go "0123456789").
Proof.
  unfold is_digit09.
  destruct c as [b0 b1 b2 b3 b4 b5 b6 b7].
  destruct b0, b1, b2, b3, b4, b5, b6, b7; intro H;
    solve [ discriminate H | vm_compute; auto 20 ].
Qed.

Lemma x_is_no_digit (c : ascii) : is_digit09 c -> ascii_eqb "x" c = false.
Proof.
  intro H. apply digit09_cases in H. simpl in H.
  repeat (destruct H as [<- | H]; [ reflexivity | ]). contradiction.
Qed.

Lemma firstn_prefix {X : Type} (n : nat) (l1 l2 : list X) :
  n = length l1 -> firstn n (l1 ++ l2) = l1.
Proof.
  intros ->. rewrite firstn_app, Nat.sub_diag, firstn_all. simpl.
  apply app_nil_r.
Qed.

Lemma run_number_nil {T : Type} (i : nat) (k : cont T) (pos : nat) (cs : caps) :
  run (number i) pos [] cs k = None.
Proof. reflexivity. Qed.

Lemma number_capture (ranges : list (ascii * ascii)) (pos : nat) (c : ascii) (s : str) :
  firstn (S pos + length (class_prefix ranges s) - pos) (c :: s)
  = c :: class_prefix ranges s.
Proof.
  replace (S pos + length (class_prefix ranges s) - pos)%nat
    with (S (length (class_prefix ranges s))) by lia.
  simpl. f_equal.
  rewrite (class_prefix_rest ranges s) at 2.
  now apply firstn_prefix.
Qed.

Lemma run_number_cons {T : Type} (i : nat) (k : cont T) (pos : nat)
    (c : ascii) (s : str) (cs : caps) :
  (forall pos' c' s' cs', is_digit09 c' -> k pos' (c' :: s') cs' = None) ->
  run (number i) pos (c :: s) cs k =
  if in_class [("1", "9")]%char c
  then k (S pos + length (digits09 s))%nat (after09 s) ((i, c :: digits09 s) :: cs)
  else None.
Proof.
  intro Hk.
  change (run (number i) pos (c :: s) cs k) with
    (if in_class [("1", "9")]%char c
     then run (Star (Class [("0", "9")]%char)) (S pos) s cs
            (fun pos' s' cs' => k pos' s' ((i, firstn (pos' - pos) (c :: s)) :: cs'))
     else None).
  destruct (in_class _ c); auto.
  rewrite run_Star_Class, greedy_longest.
  - unfold digits09, after09. now rewrite number_capture.
  - intros; now apply Hk.
Qed.

Lemma run_number_first {T : Type} (i : nat) (k : cont T) (t : T) (pos : nat)
    (c : ascii) (s : str) (cs : caps) :
  is_digit19 c ->
  k (S pos + length (digits09 s))%nat (after09 s) ((i, c :: digits09 s) :: cs) = Some t ->
  run (number i) pos (c :: s) cs k = Some t.
Proof.
  intros Hc E.
  change (run (number i) pos (c :: s) cs k) with
    (if in_class [("1", "9")]%char c
     then run (Star (Class [("0", "9")]%char)) (S pos) s cs
            (fun pos' s' cs' => k pos' s' ((i, firstn (pos' - pos) (c :: s)) :: cs'))
     else None).
  unfold is_digit19 in Hc. rewrite Hc.
  rewrite run_Star_Class. apply greedy_longest_first.
  unfold digits09, after09 in E. now rewrite number_capture.
Qed.

Lemma size_split_text (s w h rest : str) :
  size_split s = Some (w, h, rest) ->
  s = (w ++ "x"%char :: h) ++ rest /\ positive_digits w /\ positive_digits h.
Proof.
  unfold size_split.
  destruct s as [| c1 s1]; [ discriminate | ].
  destruct (in_class _ c1) eqn:E1; [ | discriminate ].
  destruct (after09 s1) as [| x [| c2 s2]] eqn:E; try discriminate.
  destruct (ascii_eqb "x" x) eqn:Ex; [ | discriminate ].
  destruct (in_class _ c2) eqn:E2; [ | discriminate ].
  simpl. intro H. inversion H; subst; clear H.
  apply ascii_eqb_eq in Ex. subst x.
  split; [ | split ].
  - simpl. f_equal.
    rewrite (class_prefix_rest [("0", "9")]%char s1) at 1.
    fold (after09 s1). rewrite E. rewrite <- app_assoc. simpl.
    do 3 f_equal. apply class_prefix_rest.
  - split; auto. apply class_prefix_member.
  - split; auto. apply class_prefix_member.
Qed.

Lemma First_sizeRegex_at_start (s : str) :
  match_at First.sizeRegex 0 s =
  match size_split s with
  | Some (w, h, []) => Some [s; w; h]
  | _ => None
  end.
Proof.
  unfold match_at.
  change (NumSubexp First.sizeRegex) with 2%nat.
  set (kf := fun (pos' : nat) (_ : str) (cs : caps) =>
               Some (firstn (pos' - 0) s :: map (fun i => group i cs) (seq 1 2))).
  change (run First.sizeRegex 0 s [] kf) with
    (run (number 1) 0 s []
       (fun p1 s1 cs1 =>
          run (Lit "x") p1 s1 cs1
            (fun p2 s2 cs2 =>
               run (number 2) p2 s2 cs2
                 (fun p3 s3 cs3 => run EndText p3 s3 cs3 kf)))).
  destruct (size_split s) as [[[w h] rest] |] eqn:Split.
  - pose proof (size_split_text _ _ _ _ Split) as (Hs & _ & _).
    revert Split. unfold size_split.
    destruct s as [| c1 s1]; [ discriminate | ].
    rewrite run_number_cons
      by (intros ? c' ? ? Hc; cbv beta; cbn [run]; now rewrite (x_is_no_digit c' Hc)).
    destruct (in_class _ c1); [ | discriminate ].
    destruct (after09 s1) as [| x [| c2 s2]]; try discriminate.
    destruct (ascii_eqb "x" x) eqn:Ex; [ | discriminate ].
    destruct (in_class _ c2) eqn:E2; [ | discriminate ].
    simpl andb. cbv iota. intro H. inversion H; subst w h rest; clear H.
    cbn [run]. rewrite Ex.
    rewrite run_number_cons by reflexivity.
    rewrite E2.
    destruct (after09 s2) eqn:E3; cbn [run]; auto.
    unfold kf. cbn [map seq group Nat.eqb].
    do 2 f_equal.
    rewrite app_nil_r in Hs. rewrite Hs at 2. rewrite Hs.
    apply firstn_all2.
    rewrite length_app. simpl length. lia.
  - revert Split. unfold size_split.
    destruct s as [| c1 s1]; [ reflexivity | ].
    rewrite run_number_cons
      by (intros ? c' ? ? Hc; cbv beta; cbn [run]; now rewrite (x_is_no_digit c' Hc)).
    destruct (in_class _ c1); [ | reflexivity ].
    destruct (after09 s1) as [| x [| c2 s2]]; try reflexivity.
    + cbn [run]. destruct (ascii_eqb "x" x); reflexivity.
    + cbn [run]. destruct (ascii_eqb "x" x) eqn:Ex; [ | reflexivity ].
      rewrite run_number_cons by reflexivity.
      destruct (in_class _ c2); [ discriminate | reflexivity ].
Qed.

Lemma run_number_reject {T : Type} (i : nat) (k : cont T) (pos : nat)
    (c : ascii) (s : str) (cs : caps) :
  in_class [("1", "9")]%char c = false ->
  run (number i) pos (c :: s) cs k = None.
Proof.
  intro Hc.
  change (run (number i) pos (c :: s) cs k) with
    (if in_class [("1", "9")]%char c
     then run (Star (Class [("0", "9")]%char)) (S pos) s cs
            (fun pos' s' cs' => k pos' s' ((i, firstn (pos' - pos) (c :: s)) :: cs'))
     else None).
  now rewrite Hc.
Qed.

Lemma Second_sizeRegex_at_start (s : str) :
  match_at Second.sizeRegex 0 s =
  match size_split s with
  | Some (w, h, _) => Some [w ++ "x"%char :: h; w; h]
  | None => None
  end.
Proof.
  unfold match_at.
  change (NumSubexp Second.sizeRegex) with 2%nat.
  set (kf := fun (pos' : nat) (_ : str) (cs : caps) =>
               Some (firstn (pos' - 0) s :: map (fun i => group i cs) (seq 1 2))).
  change (run Second.sizeRegex 0 s [] kf) with
    (run (number 1) 0 s []
       (fun p1 s1 cs1 =>
          run (Lit "x") p1 s1 cs1
            (fun p2 s2 cs2 => run (number 2) p2 s2 cs2 kf))).
  destruct (size_split s) as [[[w h] rest] |] eqn:Split.
  - pose proof (size_split_text _ _ _ _ Split) as (Hs & _ & _).
    revert Split. unfold size_split.
    destruct s as [| c1 s1]; [ discriminate | ].
    rewrite run_number_cons
      by (intros ? c' ? ? Hc; cbv beta; cbn [run]; now rewrite (x_is_no_digit c' Hc)).
    destruct (in_class _ c1); [ | discriminate ].
    destruct (after09 s1) as [| x [| c2 s2]]; try discriminate.
    destruct (ascii_eqb "x" x) eqn:Ex; [ | discriminate ].
    destruct (in_class _ c2) eqn:E2; [ | discriminate ].
    simpl andb. cbv iota. intro H. inversion H; subst w h rest; clear H.
    cbn [run]. rewrite Ex.
    apply run_number_first; auto.
    unfold kf. cbn [map seq group Nat.eqb].
    do 2 f_equal.
    rewrite Hs. apply firstn_prefix.
    rewrite length_app. simpl length. lia.
  - revert Split. unfold size_split.
    destruct s as [| c1 s1]; [ reflexivity | ].
    rewrite run_number_cons
      by (intros ? c' ? ? Hc; cbv beta; cbn [run]; now rewrite (x_is_no_digit c' Hc)).
    destruct (in_class _ c1); [ | reflexivity ].
    destruct (after09 s1) as [| x [| c2 s2]]; try reflexivity.
    + cbn [run]. destruct (ascii_eqb "x" x); reflexivity.
    + cbn [run]. destruct (ascii_eqb "x" x) eqn:Ex; [ | reflexivity ].
      destruct (in_class _ c2) eqn:E2; [ discriminate | ].
      intros _. now apply run_number_reject.
Qed.

Lemma First_sizeRegex_submatch (s : str) :
  FindStringSubmatch First.sizeRegex s =
  match size_split s with
  | Some (w, h, []) => [s; w; h]
  | _ => []
  end.
Proof.
  change First.sizeRegex with
    (Cat BeginText (cat [number 1; Lit "x"; number 2] EndText)).
  rewrite FindStringSubmatch_BeginText.
  change (Cat BeginText (cat [number 1; Lit "x"; number 2] EndText))
    with First.sizeRegex.
  rewrite First_sizeRegex_at_start.
  destruct (size_split s) as [[[w h] [| c rest]] |]; reflexivity.
Qed.

Lemma search_here (r : Regexp) (pos : nat) (s : str) (m : list str) :
  match_at r pos s = Some m -> search r pos s = Some m.
Proof.
  intro H. destruct s; cbn [search]; now rewrite H.
Qed.

Lemma Second_sizeRegex_submatch (s w h rest : str) :
  size_split s = Some (w, h, rest) ->
  FindStringSubmatch Second.sizeRegex s = [w ++ "x"%char :: h; w; h].
Proof.
  intro Split. unfold FindStringSubmatch.
  rewrite (search_here _ _ _ [w ++ "x"%char :: h; w; h]); auto.
  now rewrite Second_sizeRegex_at_start, Split.
Qed.

(** ** The hex colour parser: claims *)

Lemma upper_is_not_lower_hex (c : ascii) :
  is_upper c = true -> is_lower_hex c = false.
Proof.
  destruct c as [b0 b1 b2 b3 b4 b5 b6 b7].
  destruct b0, b1, b2, b3, b4, b5, b6, b7; intro H;
    solve [ discriminate H | reflexivity ].
Qed.

Lemma lower_hex_In (n : nat) (s : str) (c : ascii) :
  lower_hex n s -> In c s -> is_lower_hex c = true.
Proof.
  intros [_ H] Hin. rewrite Forall_forall in H. auto.
Qed.

(** C1: a line of six lowercase hexadecimal digits, with or without a
    leading [#], is parsed after the [#] is stripped: the channels are the
    base-16 values of the three pairs of digits, alpha is 255 and the
    canonical name is the six digits. *)
Theorem parseHex_six_digits (a : arch) (c1 c2 c3 c4 c5 c6 : ascii) (line : str) :
  Forall (fun c => is_lower_hex c = true) [c1; c2; c3; c4; c5; c6] ->
  line = [c1; c2; c3; c4; c5; c6] \/ line = "#"%char :: [c1; c2; c3; c4; c5; c6] ->
  parseHex a (strings.TrimLeft line (go "#")) =
  Done ({| Color := Some {| R := hexpair c1 c2; G := hexpair c3 c4;
                            B := hexpair c5 c6; A := 255 |};
           Name := [c1; c2; c3; c4; c5; c6] |}, None).
Proof.
  intros F Hline.
  assert (L : lower_hex 6 [c1; c2; c3; c4; c5; c6]) by (split; auto).
  rewrite (TrimLeft_hash 5 _ _ L Hline).
  now rewrite (parseHex_six a _ L).
Qed.

Lemma parseHex_six_digits_witness :
  Forall (fun c => is_lower_hex c = true) (go "a1b2c3") /\
  parseHex arch64 (strings.TrimLeft (go "#a1b2c3") (go "#")) =
  Done ({| Color := Some {| R := 161; G := 178; B := 195; A := 255 |};
           Name := go "a1b2c3" |}, None).
Proof.
  assert (F : Forall (fun c => is_lower_hex c = true) (go "a1b2c3"))
    by (repeat constructor).
  split; [ exact F | ].
  apply (parseHex_six_digits arch64 "a" "1" "b" "2" "c" "3" (go "#a1b2c3") F).
  right; reflexivity.
Defined.

(** C2: a line of three lowercase hexadecimal digits, with or without a
    leading [#], has each digit doubled before decoding: the canonical name
    is d1 d1 d2 d2 d3 d3 and each channel is the base-16 value of its doubled
    digit; "abc" gives "aabbcc" with channels 0xAA, 0xBB, 0xCC and alpha 255.
    Such a line never has the six-digit form. *)
Theorem parseHex_three_digits (a : arch) (c1 c2 c3 : ascii) (line : str) :
  Forall (fun c => is_lower_hex c = true) [c1; c2; c3] ->
  line = [c1; c2; c3] \/ line = "#"%char :: [c1; c2; c3] ->
  parseHex a (strings.TrimLeft line (go "#")) =
  Done ({| Color := Some {| R := hexpair c1 c1; G := hexpair c2 c2;
                            B := hexpair c3 c3; A := 255 |};
           Name := [c1; c1; c2; c2; c3; c3] |}, None)
  /\ ~ lower_hex 6 (strings.TrimLeft line (go "#"))
  /\ parseHex a (go "abc") =
     Done ({| Color := Some {| R := 170; G := 187; B := 204; A := 255 |};
              Name := go "aabbcc" |}, None).
Proof.
  intros F Hline.
  assert (L : lower_hex 3 [c1; c2; c3]) by (split; auto).
  rewrite (TrimLeft_hash 2 _ _ L Hline).
  split; [ | split ].
  - now rewrite (parseHex_three a _ L).
  - intros [Hlen _]. discriminate Hlen.
  - destruct a; reflexivity.
Qed.

Lemma parseHex_three_digits_witness :
  Forall (fun c => is_lower_hex c = true) (go "f00") /\
  parseHex arch32 (strings.TrimLeft (go "#f00") (go "#")) =
  Done ({| Color := Some {| R := 255; G := 0; B := 0; A := 255 |};
           Name := go "ff0000" |}, None).
Proof.
  assert (F : Forall (fun c => is_lower_hex c = true) (go "f00"))
    by (repeat constructor).
  split; [ exact F | ].
  apply (parseHex_three_digits arch32 "f" "0" "0" (go "#f00") F).
  right; reflexivity.
Defined.

Lemma hex3_color_name (s : str) :
  lower_hex 3 s ->
  lower_hex 6 (Name (hex3_color s)) /\ hex6_color (Name (hex3_color s)) = hex3_color s.
Proof.
  intros [Hlen F].
  destruct s as [| c1 [| c2 [| c3 [| c4 s]]]]; try discriminate Hlen.
  repeat match goal with
         | H : Forall _ (_ :: _) |- _ => inversion_clear H
         end.
  split; [ split | ]; simpl; auto 10.
Qed.

Lemma hex6_color_name (s : str) :
  lower_hex 6 s -> Name (hex6_color s) = s.
Proof.
  intros [Hlen _].
  now destruct s as [| c1 [| c2 [| c3 [| c4 [| c5 [| c6 [| c7 s]]]]]]].
Qed.

(** C3: whenever [parseHex] succeeds, the canonical name of the colour is
    six characters long and each of them is a lowercase hexadecimal digit. *)
Theorem parseHex_canonical_name (a : arch) (s : str) (h : Hex) :
  parseHex a s = Done (h, None) ->
  length (Name h) = 6%nat /\
  Forall (fun c => between "0" "9" c || between "a" "f" c = true) (Name h).
Proof.
  intro H. apply parseHex_success in H.
  destruct H as [[L ->] | [L ->]].
  - now rewrite (hex6_color_name _ L).
  - now apply hex3_color_name.
Qed.

Lemma parseHex_canonical_name_witness :
  parseHex arch64 (go "abc") =
    Done (mkHex (Some (mkRGBA 170 187 204 255)) (go "aabbcc"), None) /\
  length (go "aabbcc") = 6%nat /\
  Forall (fun c => between "0" "9" c || between "a" "f" c = true) (go "aabbcc").
Proof.
  split; [ reflexivity | ].
  exact (parseHex_canonical_name arch64 (go "abc")
           (mkHex (Some (mkRGBA 170 187 204 255)) (go "aabbcc")) eq_refl).
Defined.

(** C4: when [parseHex] succeeds with a colour, parsing the canonical name of
    that colour succeeds with the same colour: same channels, same alpha,
    same name. *)
Theorem parseHex_round_trip (a : arch) (s : str) (h : Hex) :
  parseHex a s = Done (h, None) ->
  parseHex a (Name h) = Done (h, None).
Proof.
  intro H. apply parseHex_success in H.
  destruct H as [[L ->] | [L ->]].
  - rewrite (hex6_color_name _ L). now apply parseHex_six.
  - destruct (hex3_color_name _ L) as [L6 E].
    rewrite (parseHex_six a _ L6). now rewrite E.
Qed.

Lemma parseHex_round_trip_witness :
  parseHex arch64 (go "abc") =
    Done (mkHex (Some (mkRGBA 170 187 204 255)) (go "aabbcc"), None) /\
  parseHex arch64 (go "aabbcc") =
    Done (mkHex (Some (mkRGBA 170 187 204 255)) (go "aabbcc"), None).
Proof.
  split; [ reflexivity | ].
  exact (parseHex_round_trip arch64 (go "abc")
           (mkHex (Some (mkRGBA 170 187 204 255)) (go "aabbcc")) eq_refl).
Defined.

(** C5: a string that is neither six nor three lowercase hexadecimal digits
    is answered with the error "parse: not a hex color" and the zero colour,
    without a panic; so is, in particular, every string with an uppercase
    letter, every string whose length is neither 3 nor 6, and every string
    with a character that is no hexadecimal digit. *)
Theorem parseHex_rejects (a : arch) (s : str) :
  (~ lower_hex 6 s /\ ~ lower_hex 3 s) \/
  has_upper s \/
  (length s <> 3%nat /\ length s <> 6%nat) \/
  has_non_hex s ->
  parseHex a s = Done (zeroHex, errors.New "parse: not a hex color").
Proof.
  intro H.
  assert (N : forall n, (n = 6 \/ n = 3)%nat -> ~ lower_hex n s).
  { intros n Hn L.
    destruct H as [[H6 H3] | [(c & Hin & Hc) | [[H3 H6] | (c & Hin & Hc)]]].
    - destruct Hn as [-> | ->]; auto.
    - apply upper_is_not_lower_hex in Hc.
      rewrite (lower_hex_In _ _ _ L Hin) in Hc. discriminate Hc.
    - destruct L as [Hlen _]. destruct Hn as [-> | ->]; auto.
    - unfold is_hex in Hc. rewrite (lower_hex_In _ _ _ L Hin) in Hc.
      discriminate Hc. }
  apply parseHex_neither; apply N; auto.
Qed.

Lemma parseHex_rejects_witness :
  has_upper (go "abC") /\
  parseHex arch64 (go "abC") = Done (zeroHex, errors.New "parse: not a hex color").
Proof.
  assert (U : has_upper (go "abC")).
  { exists "C"%char. split; [ simpl; auto | reflexivity ]. }
  split; [ exact U | ].
  apply (parseHex_rejects arch64 (go "abC")). right; left. exact U.
Defined.

(** C10: when one of the colour patterns has matched, so that there are four
    submatches, [ParseInt] in base 16 returns a nil error on each group once
    it is doubled where it has one digit, and a value from 0 to 255, which
    the conversion to [uint8] leaves as it is. *)
Theorem parseHex_ParseInt_safe (a : arch) (s : str) :
  length (findHexParts colorRegex [] s) = 4%nat ->
  Forall (fun g => exists v,
            strconv.ParseInt a (doubled g) 16 0 = (v, None) /\
            0 <= v <= 255 /\ uint8 v = v)
         (skipn 1 (findHexParts colorRegex [] s)).
Proof.
  rewrite findHexParts_colorRegex.
  assert (P : forall c1 c2, is_lower_hex c1 = true -> is_lower_hex c2 = true ->
              exists v, strconv.ParseInt a [c1; c2] 16 0 = (v, None) /\
                        0 <= v <= 255 /\ uint8 v = v).
  { intros c1 c2 H1 H2. exists (hexpair c1 c2).
    auto using ParseInt_hex_pair, hexpair_range, uint8_hexpair. }
  destruct (lower_hexb 6 s) eqn:E6.
  - apply lower_hexb_spec in E6. pose proof (lower_hex_forallb _ _ E6) as Hall.
    destruct E6 as [Hlen F].
    destruct s as [| c1 [| c2 [| c3 [| c4 [| c5 [| c6 [| c7 s]]]]]]];
      try discriminate Hlen.
    unfold hex6_groups. rewrite Hall.
    repeat match goal with
           | H : Forall _ (_ :: _) |- _ => inversion_clear H
           end.
    intros _. simpl. repeat constructor; apply P; assumption.
  - assert (H6 : ~ lower_hex 6 s) by (rewrite <- lower_hexb_spec; congruence).
    rewrite (hex6_groups_nil _ H6). simpl.
    destruct (lower_hexb 3 s) eqn:E3.
    + apply lower_hexb_spec in E3. pose proof (lower_hex_forallb _ _ E3) as Hall.
      destruct E3 as [Hlen F].
      destruct s as [| c1 [| c2 [| c3 [| c4 s]]]]; try discriminate Hlen.
      unfold hex3_groups. rewrite Hall.
      repeat match goal with
             | H : Forall _ (_ :: _) |- _ => inversion_clear H
             end.
      intros _. simpl. repeat constructor; apply P; assumption.
    + assert (H3 : ~ lower_hex 3 s) by (rewrite <- lower_hexb_spec; congruence).
      rewrite (hex3_groups_nil _ H3). discriminate.
Qed.

Lemma parseHex_ParseInt_safe_witness :
  length (findHexParts colorRegex [] (go "f0a")) = 4%nat /\
  Forall (fun g => exists v,
            strconv.ParseInt arch32 (doubled g) 16 0 = (v, None) /\
            0 <= v <= 255 /\ uint8 v = v)
         (skipn 1 (findHexParts colorRegex [] (go "f0a"))).
Proof.
  split; [ reflexivity | ].
  apply (parseHex_ParseInt_safe arch32 (go "f0a")). reflexivity.
Defined.

(** ** The size parsers: claims *)

(** C6: the size parser reads "800x600" as width 800 and height 600 and
    answers "0x5" and "10x" with the error "parse: invalid size"; the size
    code of the second revision reads the same size and ends the process on
    the other two. *)
Theorem parseSize_examples (a : arch) (w0 : World) :
  First.parseSize a (go "800x600") = Done ({| Width := 800; Height := 600 |}, None) /\
  First.parseSize a (go "0x5") = Done (zeroSize, errors.New "parse: invalid size") /\
  First.parseSize a (go "10x") = Done (zeroSize, errors.New "parse: invalid size") /\
  Second.mainSize a (go "800x600") w0 = (w0, Done (800, 600)) /\
  snd (Second.mainSize a (go "0x5") w0) = Exit 1 /\
  snd (Second.mainSize a (go "10x") w0) = Exit 1.
Proof.
  destruct a; repeat split; reflexivity.
Qed.

Lemma First_parseSize_accepts (a : arch) (s : str) (width height : Z) :
  First.parseSize a s = Done ({| Width := width; Height := height |}, None) ->
  exists w h,
    size_split s = Some (w, h, []) /\
    strconv.Atoi a w = (width, None) /\
    strconv.Atoi a h = (height, None).
Proof.
  unfold First.parseSize. rewrite First_sizeRegex_submatch.
  destruct (size_split s) as [[[w h] [| c rest]] |];
    cbn [length Nat.eqb negb index nth_error bind]; try discriminate.
  destruct (strconv.Atoi a w) as [width' [e |]] eqn:Ew; [ discriminate | ].
  destruct (strconv.Atoi a h) as [height' [e |]] eqn:Eh; [ discriminate | ].
  intro H. inversion H; subst. exists w, h. auto.
Qed.

(** C9: the size pattern of the first revision is anchored and that of the
    second is not.  Every string the first size parser accepts is read by
    the size code of the second revision with the same width and height;
    and "a800x600b", which has a size as a proper substring, is accepted by
    the second as 800 by 600 and rejected by the first. *)
Theorem sizeRegex_anchored_refines_unanchored (a : arch) (w0 : World) :
  (forall (s : str) (width height : Z),
      First.parseSize a s = Done ({| Width := width; Height := height |}, None) ->
      Second.mainSize a s w0 = (w0, Done (width, height))) /\
  Second.mainSize a (go "a800x600b") w0 = (w0, Done (800, 600)) /\
  First.parseSize a (go "a800x600b") =
    Done (zeroSize, errors.New "parse: invalid size").
Proof.
  split; [ | destruct a; split; reflexivity ].
  intros s width height H.
  apply First_parseSize_accepts in H. destruct H as (w & h & Split & Ew & Eh).
  unfold Second.mainSize.
  rewrite (Second_sizeRegex_submatch _ _ _ _ Split).
  cbn [length Nat.eqb negb index nth_error pure seq_io].
  rewrite Ew. cbn [seq_io pure index nth_error]. rewrite Eh. reflexivity.
Qed.

Lemma sizeRegex_anchored_refines_unanchored_witness :
  First.parseSize arch64 (go "1024x768") =
    Done ({| Width := 1024; Height := 768 |}, None) /\
  Second.mainSize arch64 (go "1024x768") emptyWorld = (emptyWorld, Done (1024, 768)).
Proof.
  split; [ reflexivity | ].
  apply (proj1 (sizeRegex_anchored_refines_unanchored arch64 emptyWorld)).
  reflexivity.
Defined.

(** ** Writing the image file *)

Lemma ascii_eqb_refl (c : ascii) : ascii_eqb c c = true.
Proof. unfold ascii_eqb. apply Z.eqb_refl. Qed.

Lemma str_eqb_refl (s : str) : str_eqb s s = true.
Proof.
  induction s as [| c s IH]; simpl; auto. now rewrite ascii_eqb_refl.
Qed.

Lemma files_put (w : World) (name : str) (n : node) :
  files (put w name n) name = Some n.
Proof. simpl. now rewrite str_eqb_refl. Qed.



(** Opening an existing writable file as the program does leaves its data
    in place. *)
Lemma open_for_png_existing (w : World) (name : str) (old : list Byte.byte) :
  files w name = Some (Regular true old) ->
  open_for_png name w = (w, Done (inl (mkFile name 0))).
Proof.
  intro H. unfold open_for_png, OpenFile. now rewrite H.
Qed.

(** With [O_TRUNC] the old data would be dropped at the open. *)
Lemma OpenFile_TRUNC (w : World) (name : str) (old : list Byte.byte) :
  files w name = Some (Regular true old) ->
  files (fst (OpenFile w name (Z.lor (Z.lor O_WRONLY O_CREATE) O_TRUNC) 420)) name
  = Some (Regular true []).
Proof.
  intro H. unfold OpenFile. rewrite H. simpl. now rewrite str_eqb_refl.
Qed.

Lemma png_Encode_existing (encode : Encoder) (w : World) (name : str)
    (img : image.Image) (old : list Byte.byte) :
  files w name = Some (Regular true old) ->
  png_Encode encode (mkFile name 0) img w =
  (put w name (Regular true (fst (encode img) ++ skipn (length (fst (encode img))) old)),
   Done (snd (encode img))).
Proof.
  intro H. unfold png_Encode, Write. destruct (encode img) as [bs err].
  simpl fname. rewrite H. reflexivity.
Qed.

(** C7, on the code: both revisions open the file with [O_WRONLY] and
    [O_CREATE] and without [O_TRUNC].  When a file of that name exists with
    more bytes than the encoder writes, the new bytes replace the start of
    the file and the bytes of the old content beyond them stay. *)
Theorem generateImage_keeps_old_tail (a : arch) (encode : Encoder) (rawHex : str)
    (s : Size) (w : World) (c : Hex) (old : list Byte.byte) :
  parseHex a (strings.TrimLeft rawHex (go "#")) = Done (c, None) ->
  files w (Name c ++ go ".png") = Some (Regular true old) ->
  (length (encoded encode c s) < length old)%nat ->
  files (fst (First.generateImage a encode (strings.TrimLeft rawHex (go "#")) s w))
        (Name c ++ go ".png")
  = Some (Regular true (encoded encode c s ++ skipn (length (encoded encode c s)) old)) /\
  files (fst (Second.generateImage a encode rawHex (Width s) (Height s) w))
        (Name c ++ go ".png")
  = Some (Regular true (encoded encode c s ++ skipn (length (encoded encode c s)) old)) /\
  skipn (length (encoded encode c s)) old <> [] /\
  Z.land (Z.lor O_WRONLY O_CREATE) O_TRUNC = 0.
Proof.
  intros Hc Hold Hlen.
  unfold First.generateImage, Second.generateImage, seq_io, pure.
  rewrite Hc. cbv iota beta.
  rewrite (open_for_png_existing _ _ _ Hold).
  fold (raster c (Width s) (Height s)).
  rewrite (png_Encode_existing _ _ _ _ _ Hold).
  fold (encoded encode c s). repeat split.
  - simpl. now rewrite str_eqb_refl.
  - simpl. now rewrite str_eqb_refl.
  - intro E. apply (f_equal (@length _)) in E.
    rewrite length_skipn in E. change (length (@nil Byte.byte)) with 0%nat in E. lia.
Qed.

Lemma generateImage_keeps_old_tail_witness :
  files (fst (First.generateImage arch64 signatureOnly (go "f00") (mkSize 1 1) staleWorld))
        (go "ff0000.png")
  = Some (Regular true [Byte.x89; Byte.x50; Byte.x4e; Byte.x47; Byte.x0d;
                        Byte.x0a; Byte.x1a; Byte.x0a; Byte.x41; Byte.x42]) /\
  files (fst (Second.generateImage arch64 signatureOnly (go "#f00") 1 1 staleWorld))
        (go "ff0000.png")
  = Some (Regular true [Byte.x89; Byte.x50; Byte.x4e; Byte.x47; Byte.x0d;
                        Byte.x0a; Byte.x1a; Byte.x0a; Byte.x41; Byte.x42]).
Proof.
  pose proof (generateImage_keeps_old_tail arch64 signatureOnly (go "#f00")
                (mkSize 1 1) staleWorld
                (mkHex (Some (mkRGBA 255 0 0 255)) (go "ff0000"))
                [Byte.x89; Byte.x50; Byte.x4e; Byte.x47; Byte.x0d;
                 Byte.x0a; Byte.x1a; Byte.x0a; Byte.x41; Byte.x42]
                eq_refl eq_refl) as H.
  assert (L : (length (encoded signatureOnly
                         (mkHex (Some (mkRGBA 255 0 0 255)) (go "ff0000"))
                         (mkSize 1 1)) < 10)%nat) by (simpl; lia).
  destruct (H L) as (H1 & H2 & _).
  split; [ exact H1 | exact H2 ].
Defined.

(** ** The line loop of the first revision *)

Lemma parseHex_returns (a : arch) (s : str) :
  exists h err, parseHex a s = Done (h, err).
Proof.
  destruct (parseHex_cases a s) as [[_ E] | [[_ E] | (_ & _ & E)]];
    rewrite E; eauto.
Qed.










(** * Further properties *)

(** ** Decimal numbers and [Atoi] *)

Lemma digit09_value (c : ascii) :
  is_digit09 c ->
  strconv.digit (byte_of c) = Some (byte_of c - 48) /\
  0 <= byte_of c - 48 <= 9 /\
  ascii_eqb c "+" = false /\ ascii_eqb c "-" = false.
Proof.
  intro H. apply digit09_cases in H. simpl in H.
  repeat (destruct H as [<- | H]; [ vm_compute; intuition discriminate | ]).
  contradiction.
Qed.

Lemma digit19_value (c : ascii) :
  is_digit19 c -> is_digit09 c /\ 1 <= byte_of c - 48.
Proof.
  unfold is_digit19, is_digit09.
  destruct c as [b0 b1 b2 b3 b4 b5 b6 b7].
  destruct b0, b1, b2, b3, b4, b5, b6, b7; intro H;
    solve [ discriminate H | split; [ reflexivity | vm_compute; discriminate ] ].
Qed.

Lemma decimal_from_ge (s : str) :
  forall n, Forall is_digit09 s -> 0 <= n -> n <= decimal_from n s.
Proof.
  induction s as [| c s IH]; intros n F Hn; simpl; [ lia | ].
  inversion_clear F as [| ? ? Hc F'].
  destruct (digit09_value c Hc) as (_ & Hd & _).
  specialize (IH (n * 10 + (byte_of c - 48)) F'). lia.
Qed.

(** The digit loop reads the decimal value when it fits. *)
Lemma accumulate_fits (s0 : str) (maxVal : Z) (cs : str) :
  forall n,
    Forall is_digit09 cs -> 0 <= n -> maxVal <= strconv.maxUint64 ->
    decimal_from n cs <= maxVal ->
    strconv.accumulate s0 10 (strconv.maxUint64 / 10 + 1) maxVal cs n
    = (decimal_from n cs, None).
Proof.
  induction cs as [| c cs IH]; intros n F Hn Hmax Hfit; simpl; auto.
  inversion_clear F as [| ? ? Hc F'].
  destruct (digit09_value c Hc) as (Hd & Hr & _).
  rewrite Hd.
  simpl in Hfit.
  pose proof (decimal_from_ge cs (n * 10 + (byte_of c - 48)) F') as Hge.
  unfold strconv.maxUint64 in *.
  change (2 ^ 64 - 1) with 18446744073709551615 in *.
  change (18446744073709551615 / 10 + 1) with 1844674407370955162.
  destruct (byte_of c - 48 >=? 10) eqn:E1; [ lia | ].
  destruct (n >=? 1844674407370955162) eqn:E2; [ lia | ].
  unfold strconv.uint64. change (2 ^ 64) with 18446744073709551616.
  rewrite (Z.mod_small (n * 10)) by lia.
  rewrite (Z.mod_small (n * 10 + _)) by lia.
  destruct (n * 10 + (byte_of c - 48) <? n * 10) eqn:E3; [ lia | ].
  destruct (n * 10 + (byte_of c - 48) >? maxVal) eqn:E4; [ lia | ].
  simpl. apply IH; auto; lia.
Qed.

(** The digit loop reports a range error when the value does not fit. *)
Lemma accumulate_overflows (s0 : str) (maxVal : Z) (cs : str) :
  forall n,
    Forall is_digit09 cs -> 0 <= n <= maxVal -> maxVal <= strconv.maxUint64 ->
    maxVal < decimal_from n cs ->
    strconv.accumulate s0 10 (strconv.maxUint64 / 10 + 1) maxVal cs n
    = (maxVal, strconv.rangeError "ParseUint" s0).
Proof.
  induction cs as [| c cs IH]; intros n F Hn Hmax Hbig; simpl in *; [ lia | ].
  inversion_clear F as [| ? ? Hc F'].
  destruct (digit09_value c Hc) as (Hd & Hr & _).
  rewrite Hd.
  unfold strconv.maxUint64 in *.
  change (2 ^ 64 - 1) with 18446744073709551615 in *.
  change (18446744073709551615 / 10 + 1) with 1844674407370955162.
  destruct (byte_of c - 48 >=? 10) eqn:E1; [ lia | ].
  destruct (n >=? 1844674407370955162) eqn:E2; auto.
  unfold strconv.uint64. change (2 ^ 64) with 18446744073709551616.
  rewrite (Z.mod_small (n * 10)) by lia.
  destruct (Z_lt_ge_dec (n * 10 + (byte_of c - 48)) 18446744073709551616) as [Hs | Hw].
  - rewrite (Z.mod_small (n * 10 + _)) by lia.
    destruct (n * 10 + (byte_of c - 48) <? n * 10) eqn:E3; [ lia | ].
    destruct (n * 10 + (byte_of c - 48) >? maxVal) eqn:E4; auto.
    simpl. apply IH; auto; lia.
  - assert (E : (n * 10 + (byte_of c - 48)) mod 18446744073709551616
                = n * 10 + (byte_of c - 48) - 18446744073709551616).
    { symmetry. apply Z.mod_unique with (q := 1); lia. }
    rewrite E.
    destruct (n * 10 + (byte_of c - 48) - 18446744073709551616 <? n * 10) eqn:E3;
      [ reflexivity | lia ].
Qed.

Lemma ParseUint_decimal (a : arch) (c : ascii) (cs : str) :
  strconv.ParseUint a (c :: cs) 10 0
  = strconv.accumulate (c :: cs) 10 (strconv.maxUint64 / 10 + 1)
      (2 ^ strconv.IntSize a - 1) (c :: cs) 0.
Proof. destruct a; reflexivity. Qed.

(** [Atoi] on a string of digits: its decimal value when that is an [int],
    else the largest [int] and a range error. *)
Lemma Atoi_digits (a : arch) (s : str) :
  s <> [] -> Forall is_digit09 s ->
  (decimal s <= maxInt a -> strconv.Atoi a s = (decimal s, None)) /\
  (maxInt a < decimal s ->
   strconv.Atoi a s = (maxInt a, Some (NumError "Atoi" s ErrRange))).
Proof.
  intros Hne F. destruct s as [| c cs]; [ congruence | ].
  pose proof (decimal_from_ge (c :: cs) 0 F (Z.le_refl 0)) as Hpos.
  fold (decimal (c :: cs)) in Hpos.
  assert (Hc : is_digit09 c) by now inversion F.
  destruct (digit09_value c Hc) as (_ & _ & Hplus & Hminus).
  assert (Hmax : 2 ^ strconv.IntSize a - 1 <= strconv.maxUint64)
    by (destruct a; vm_compute; discriminate).
  unfold strconv.Atoi, strconv.ParseInt. rewrite Hplus, Hminus.
  rewrite ParseUint_decimal.
  destruct (Z_le_gt_dec (decimal (c :: cs)) (2 ^ strconv.IntSize a - 1)) as [Hfit | Hbig].
  - rewrite (accumulate_fits _ _ _ 0 F (Z.le_refl 0) Hmax Hfit).
    fold (decimal (c :: cs)).
    generalize dependent (decimal (c :: cs)). intros v Hpos Hfit.
    unfold maxInt. cbn [strconv.is_error strconv.is_range andb negb Z.eqb].
    split; intro Hv.
    + destruct a; cbn [strconv.IntSize] in *;
        unfold strconv.uint64, strconv.int64, strconv.signed;
        change (Z.shiftl 1 (32 - 1)) with 2147483648;
        change (Z.shiftl 1 (64 - 1)) with 9223372036854775808;
        change (2 ^ (32 - 1)) with 2147483648 in *;
        change (2 ^ (64 - 1)) with 9223372036854775808 in *;
        change (2 ^ 32) with 4294967296 in *;
        change (2 ^ 64) with 18446744073709551616 in *.
      * rewrite (Z.mod_small 2147483648) by lia.
        destruct (v >=? 2147483648) eqn:E; [ lia | ].
        rewrite (Z.mod_small (v + 9223372036854775808)) by lia.
        replace (v + 9223372036854775808 - 9223372036854775808) with v by lia.
        rewrite (Z.mod_small (v + 2147483648)) by lia.
        f_equal. lia.
      * rewrite (Z.mod_small 9223372036854775808) by lia.
        destruct (v >=? 9223372036854775808) eqn:E; [ lia | ].
        rewrite (Z.mod_small (v + 9223372036854775808)) by lia.
        replace (v + 9223372036854775808 - 9223372036854775808) with v by lia.
        rewrite (Z.mod_small (v + 9223372036854775808)) by lia.
        f_equal. lia.
    + destruct a; cbn [strconv.IntSize] in *;
        unfold strconv.uint64;
        change (Z.shiftl 1 (32 - 1)) with 2147483648;
        change (Z.shiftl 1 (64 - 1)) with 9223372036854775808;
        change (2 ^ (32 - 1)) with 2147483648 in *;
        change (2 ^ (64 - 1)) with 9223372036854775808 in *;
        change (2 ^ 32) with 4294967296 in *;
        change (2 ^ 64) with 18446744073709551616 in *.
      * rewrite (Z.mod_small 2147483648) by lia.
        destruct (v >=? 2147483648) eqn:E; [ | lia ]. reflexivity.
      * rewrite (Z.mod_small 9223372036854775808) by lia.
        destruct (v >=? 9223372036854775808) eqn:E; [ | lia ]. reflexivity.
  - assert (H0 : 0 <= 0 <= 2 ^ strconv.IntSize a - 1)
      by (destruct a; vm_compute; intuition discriminate).
    rewrite (accumulate_overflows _ _ _ 0 F H0 Hmax ltac:(fold (decimal (c :: cs)); lia)).
    unfold maxInt.
    split; intro Hv.
    + destruct a; cbn [strconv.IntSize] in *;
        change (2 ^ (32 - 1)) with 2147483648 in *;
        change (2 ^ (64 - 1)) with 9223372036854775808 in *;
        change (2 ^ 32) with 4294967296 in *;
        change (2 ^ 64) with 18446744073709551616 in *; lia.
    + destruct a; reflexivity.
Qed.

(** ** The size parser on every string *)

Lemma class_prefix_all (ranges : list (ascii * ascii)) (ds rest : str) :
  Forall (fun c => in_class ranges c = true) ds -> stops ranges rest ->
  class_prefix ranges (ds ++ rest) = ds /\ class_rest ranges (ds ++ rest) = rest.
Proof.
  intros F St. induction F as [| c ds Hc F IH]; simpl.
  - destruct rest as [| c rest]; simpl in *; auto. now rewrite St.
  - rewrite Hc. destruct IH as [-> ->]. auto.
Qed.

Lemma x_stops : forall s, stops [("0", "9")]%char ("x"%char :: s).
Proof. reflexivity. Qed.

(** A width, the letter x and a height, followed by text that does not go
    on with a digit, are split as such. *)
Lemma size_split_form (w h rest : str) :
  positive_digits w -> positive_digits h -> stops [("0", "9")]%char rest ->
  size_split (w ++ "x"%char :: h ++ rest) = Some (w, h, rest).
Proof.
  destruct w as [| c1 d1]; [ contradiction | ].
  destruct h as [| c2 d2]; [ contradiction | ].
  intros [H1 F1] [H2 F2] St.
  rewrite <- app_comm_cons, <- (app_comm_cons d2 rest c2).
  unfold size_split. unfold is_digit19 in H1, H2. rewrite H1.
  unfold after09, digits09.
  destruct (class_prefix_all [("0", "9")]%char d1 ("x"%char :: c2 :: d2 ++ rest) F1 (x_stops _))
    as [-> ->].
  rewrite ascii_eqb_refl, H2. simpl andb.
  destruct (class_prefix_all [("0", "9")]%char d2 rest F2 St) as [-> ->].
  reflexivity.
Qed.

Lemma positive_digits_digits (s : str) :
  positive_digits s -> s <> [] /\ Forall is_digit09 s /\ 1 <= decimal s.
Proof.
  destruct s as [| c ds]; [ contradiction | ].
  intros [Hc F]. destruct (digit19_value c Hc) as [Hc0 Hge].
  split; [ discriminate | split; [ auto | ] ].
  change (decimal (c :: ds)) with (decimal_from (0 * 10 + (byte_of c - 48)) ds).
  pose proof (decimal_from_ge ds (0 * 10 + (byte_of c - 48)) F). lia.
Qed.

(** The size parser on a width, the letter x and a height. *)
Lemma parseSize_form (a : arch) (w h : str) :
  positive_digits w -> positive_digits h ->
  First.parseSize a (w ++ "x"%char :: h) =
  if decimal w <=? maxInt a
  then if decimal h <=? maxInt a
       then Done ({| Width := decimal w; Height := decimal h |}, None)
       else Done (zeroSize, Some (NumError "Atoi" h ErrRange))
  else Done (zeroSize, Some (NumError "Atoi" w ErrRange)).
Proof.
  intros Pw Ph.
  destruct (positive_digits_digits w Pw) as (Nw & Fw & _).
  destruct (positive_digits_digits h Ph) as (Nh & Fh & _).
  unfold First.parseSize. rewrite First_sizeRegex_submatch.
  pose proof (size_split_form w h [] Pw Ph I) as Split.
  rewrite app_nil_r in Split. rewrite Split.
  cbn [length Nat.eqb negb index nth_error bind].
  destruct (decimal w <=? maxInt a) eqn:Ew.
  - apply Z.leb_le in Ew. rewrite (proj1 (Atoi_digits a w Nw Fw) Ew).
    destruct (decimal h <=? maxInt a) eqn:Eh.
    + apply Z.leb_le in Eh. now rewrite (proj1 (Atoi_digits a h Nh Fh) Eh).
    + apply Z.leb_gt in Eh. now rewrite (proj2 (Atoi_digits a h Nh Fh) Eh).
  - apply Z.leb_gt in Ew. now rewrite (proj2 (Atoi_digits a w Nw Fw) Ew).
Qed.

(** X1: the size parser accepts a width, the letter x and a height, both
    positive decimal numbers without a leading zero that fit an [int], and
    returns their values. *)
Theorem parseSize_reads_decimal (a : arch) (w h : str) :
  positive_digits w -> positive_digits h ->
  decimal w <= maxInt a -> decimal h <= maxInt a ->
  First.parseSize a (w ++ "x"%char :: h)
  = Done ({| Width := decimal w; Height := decimal h |}, None).
Proof.
  intros Pw Ph Hw Hh. rewrite (parseSize_form a w h Pw Ph).
  apply Z.leb_le in Hw. apply Z.leb_le in Hh.
  rewrite Hw, Hh. reflexivity.
Qed.

Lemma parseSize_reads_decimal_witness :
  positive_digits (go "1920") /\ positive_digits (go "1080") /\
  First.parseSize arch32 (go "1920x1080")
  = Done ({| Width := 1920; Height := 1080 |}, None).
Proof.
  assert (Pw : positive_digits (go "1920")) by (split; repeat constructor).
  assert (Ph : positive_digits (go "1080")) by (split; repeat constructor).
  split; [ exact Pw | split; [ exact Ph | ] ].
  apply (parseSize_reads_decimal arch32 (go "1920") (go "1080") Pw Ph);
    vm_compute; discriminate.
Defined.

(** X2: a width or a height beyond the largest [int] is answered with the range
    error of [Atoi] on that number, the width being looked at first, and
    with the zero size. *)
Theorem parseSize_out_of_range (a : arch) (w h : str) :
  positive_digits w -> positive_digits h ->
  maxInt a < decimal w \/ maxInt a < decimal h ->
  First.parseSize a (w ++ "x"%char :: h)
  = Done (zeroSize,
          Some (NumError "Atoi" (if decimal w <=? maxInt a then h else w) ErrRange)).
Proof.
  intros Pw Ph Hbig. rewrite (parseSize_form a w h Pw Ph).
  destruct (decimal w <=? maxInt a) eqn:Ew; auto.
  apply Z.leb_le in Ew.
  destruct (decimal h <=? maxInt a) eqn:Eh; auto.
  apply Z.leb_le in Eh. lia.
Qed.

Lemma parseSize_out_of_range_witness :
  positive_digits (go "800") /\ positive_digits (go "2147483648") /\
  First.parseSize arch32 (go "800x2147483648")
  = Done (zeroSize, Some (NumError "Atoi" (go "2147483648") ErrRange)).
Proof.
  assert (Pw : positive_digits (go "800")) by (split; repeat constructor).
  assert (Ph : positive_digits (go "2147483648")) by (split; repeat constructor).
  split; [ exact Pw | split; [ exact Ph | ] ].
  apply (parseSize_out_of_range arch32 (go "800") (go "2147483648") Pw Ph).
  right. vm_compute. reflexivity.
Defined.

(** X3: when the size parser succeeds, the string is a width, the letter x and
    a height and nothing else, the size holds their decimal values, and
    both are at least 1 and at most the largest [int]. *)
Theorem parseSize_success_positive (a : arch) (s : str) (width height : Z) :
  First.parseSize a s = Done ({| Width := width; Height := height |}, None) ->
  exists w h,
    s = w ++ "x"%char :: h /\ positive_digits w /\ positive_digits h /\
    width = decimal w /\ height = decimal h /\
    1 <= width <= maxInt a /\ 1 <= height <= maxInt a.
Proof.
  intro H. apply First_parseSize_accepts in H.
  destruct H as (w & h & Split & Ew & Eh).
  destruct (size_split_text _ _ _ _ Split) as (Hs & Pw & Ph).
  rewrite app_nil_r in Hs.
  destruct (positive_digits_digits w Pw) as (Nw & Fw & Gw).
  destruct (positive_digits_digits h Ph) as (Nh & Fh & Gh).
  exists w, h.
  destruct (Z_le_gt_dec (decimal w) (maxInt a)) as [Hw | Hw];
    [ | rewrite (proj2 (Atoi_digits a w Nw Fw)) in Ew by lia; discriminate Ew ].
  destruct (Z_le_gt_dec (decimal h) (maxInt a)) as [Hh | Hh];
    [ | rewrite (proj2 (Atoi_digits a h Nh Fh)) in Eh by lia; discriminate Eh ].
  rewrite (proj1 (Atoi_digits a w Nw Fw) Hw) in Ew.
  rewrite (proj1 (Atoi_digits a h Nh Fh) Hh) in Eh.
  inversion Ew; inversion Eh; subst. repeat split; auto.
Qed.

Lemma parseSize_success_positive_witness :
  First.parseSize arch64 (go "3x7") = Done ({| Width := 3; Height := 7 |}, None) /\
  exists w h,
    go "3x7" = w ++ "x"%char :: h /\ positive_digits w /\ positive_digits h /\
    3 = decimal w /\ 7 = decimal h /\
    1 <= 3 <= maxInt arch64 /\ 1 <= 7 <= maxInt arch64.
Proof.
  split; [ reflexivity | ].
  exact (parseSize_success_positive arch64 (go "3x7") 3 7 eq_refl).
Defined.

Lemma parseSize_not_a_size (a : arch) (s : str) :
  (~ exists w h, s = w ++ "x"%char :: h /\ positive_digits w /\ positive_digits h) ->
  First.parseSize a s = Done (zeroSize, errors.New "parse: invalid size").
Proof.
  intro N. unfold First.parseSize. rewrite First_sizeRegex_submatch.
  destruct (size_split s) as [[[w h] [| c rest]] |] eqn:Split; try reflexivity.
  exfalso. apply N.
  destruct (size_split_text _ _ _ _ Split) as (Hs & Pw & Ph).
  rewrite app_nil_r in Hs. eauto.
Qed.

(** X4: the size parser answers "parse: invalid size" exactly on the strings
    that are not a width, the letter x and a height. *)
Theorem parseSize_invalid_iff (a : arch) (s : str) :
  First.parseSize a s = Done (zeroSize, errors.New "parse: invalid size") <->
  ~ exists w h, s = w ++ "x"%char :: h /\ positive_digits w /\ positive_digits h.
Proof.
  split.
  - intros H (w & h & -> & Pw & Ph).
    rewrite (parseSize_form a w h Pw Ph) in H.
    destruct (decimal w <=? maxInt a); [ destruct (decimal h <=? maxInt a) | ];
      discriminate H.
  - apply parseSize_not_a_size.
Qed.

(** ** The size code of the second revision *)

Lemma Second_sizeRegex_at (pos : nat) (s : str) :
  match_at Second.sizeRegex pos s =
  match size_split s with
  | Some (w, h, _) => Some [w ++ "x"%char :: h; w; h]
  | None => None
  end.
Proof.
  unfold match_at.
  change (NumSubexp Second.sizeRegex) with 2%nat.
  set (kf := fun (pos' : nat) (_ : str) (cs : caps) =>
               Some (firstn (pos' - pos) s :: map (fun i => group i cs) (seq 1 2))).
  change (run Second.sizeRegex pos s [] kf) with
    (run (number 1) pos s []
       (fun p1 s1 cs1 =>
          run (Lit "x") p1 s1 cs1
            (fun p2 s2 cs2 => run (number 2) p2 s2 cs2 kf))).
  destruct (size_split s) as [[[w h] rest] |] eqn:Split.
  - pose proof (size_split_text _ _ _ _ Split) as (Hs & _ & _).
    revert Split. unfold size_split.
    destruct s as [| c1 s1]; [ discriminate | ].
    rewrite run_number_cons
      by (intros ? c' ? ? Hc; cbv beta; cbn [run]; now rewrite (x_is_no_digit c' Hc)).
    destruct (in_class _ c1); [ | discriminate ].
    destruct (after09 s1) as [| x [| c2 s2]]; try discriminate.
    destruct (ascii_eqb "x" x) eqn:Ex; [ | discriminate ].
    destruct (in_class _ c2) eqn:E2; [ | discriminate ].
    simpl andb. cbv iota. intro H. inversion H; subst w h rest; clear H.
    cbn [run]. rewrite Ex.
    apply run_number_first; auto.
    unfold kf. cbn [map seq group Nat.eqb].
    do 2 f_equal.
    rewrite Hs. apply firstn_prefix.
    rewrite length_app. simpl length. lia.
  - revert Split. unfold size_split.
    destruct s as [| c1 s1]; [ reflexivity | ].
    rewrite run_number_cons
      by (intros ? c' ? ? Hc; cbv beta; cbn [run]; now rewrite (x_is_no_digit c' Hc)).
    destruct (in_class _ c1); [ | reflexivity ].
    destruct (after09 s1) as [| x [| c2 s2]]; try reflexivity.
    + cbn [run]. destruct (ascii_eqb "x" x); reflexivity.
    + cbn [run]. destruct (ascii_eqb "x" x) eqn:Ex; [ | reflexivity ].
      destruct (in_class _ c2) eqn:E2; [ discriminate | ].
      intros _. now apply run_number_reject.
Qed.

(** The leftmost match of the unanchored pattern is the first place where a
    size can be read. *)
Lemma Second_sizeRegex_search (s : str) :
  forall pos,
    search Second.sizeRegex pos s =
    match first_size s with
    | Some (w, h) => Some [w ++ "x"%char :: h; w; h]
    | None => None
    end.
Proof.
  induction s as [| c s IH]; intro pos; cbn [search first_size];
    rewrite Second_sizeRegex_at.
  - destruct (size_split []) as [[[w h] rest] |]; reflexivity.
  - destruct (size_split (c :: s)) as [[[w h] rest] |]; [ reflexivity | apply IH ].
Qed.

Lemma first_size_skips (junk s : str) :
  Forall (fun c => in_class [("1", "9")]%char c = false) junk ->
  first_size (junk ++ s) = first_size s.
Proof.
  induction 1 as [| c junk Hc F IH]; auto.
  cbn [app first_size]. unfold size_split at 1. now rewrite Hc.
Qed.

Lemma first_size_here (s w h rest : str) :
  size_split s = Some (w, h, rest) -> first_size s = Some (w, h).
Proof.
  intro H. destruct s; cbn [first_size]; now rewrite H.
Qed.

Lemma Second_mainSize_found (a : arch) (s w h : str) (w0 : World) :
  first_size s = Some (w, h) ->
  Second.mainSize a s w0 =
  match strconv.Atoi a w with
  | (_, Some _) => (print (ErrorText "Failed to parse width %s" [w]) w0, Exit 1)
  | (width, None) =>
      match strconv.Atoi a h with
      | (_, Some _) => (print (ErrorText "Failed to parse height %s" [w]) w0, Exit 1)
      | (height, None) => (w0, Done (width, height))
      end
  end.
Proof.
  intro H. unfold Second.mainSize, FindStringSubmatch.
  rewrite Second_sizeRegex_search, H.
  cbn [length Nat.eqb negb index nth_error pure seq_io].
  destruct (strconv.Atoi a w) as [width [e |]]; [ reflexivity | ].
  cbn [seq_io pure index nth_error].
  destruct (strconv.Atoi a h) as [height [e |]]; reflexivity.
Qed.

(** X5: the second revision reads the size off the first place where one can be
    read: text before it that holds no digit from 1 to 9 and text after it
    that does not go on with a digit are passed over. *)
Theorem Second_mainSize_ignores_surroundings (a : arch) (junk w h rest : str)
    (w0 : World) :
  Forall (fun c => in_class [("1", "9")]%char c = false) junk ->
  positive_digits w -> positive_digits h ->
  stops [("0", "9")]%char rest ->
  decimal w <= maxInt a -> decimal h <= maxInt a ->
  Second.mainSize a (junk ++ w ++ "x"%char :: h ++ rest) w0
  = (w0, Done (decimal w, decimal h)).
Proof.
  intros J Pw Ph St Hw Hh.
  destruct (positive_digits_digits w Pw) as (Nw & Fw & _).
  destruct (positive_digits_digits h Ph) as (Nh & Fh & _).
  rewrite (Second_mainSize_found a _ w h).
  - rewrite (proj1 (Atoi_digits a w Nw Fw) Hw).
    now rewrite (proj1 (Atoi_digits a h Nh Fh) Hh).
  - rewrite first_size_skips by assumption.
    eapply first_size_here, size_split_form; eauto.
Qed.

Lemma Second_mainSize_ignores_surroundings_witness :
  Second.mainSize arch64 (go "size=640x480px") emptyWorld
  = (emptyWorld, Done (640, 480)).
Proof.
  apply (Second_mainSize_ignores_surroundings arch64
           (go "size=") (go "640") (go "480") (go "px") emptyWorld).
  - repeat constructor.
  - split; repeat constructor.
  - split; repeat constructor.
  - reflexivity.
  - vm_compute; discriminate.
  - vm_compute; discriminate.
Defined.

(** X6: when the width or the height is beyond the largest [int], the second
    revision ends the process with status 1; the message names the width or
    the height, and in both cases what it prints with it is the text of the
    width. *)
Theorem Second_mainSize_out_of_range (a : arch) (w h : str) (w0 : World) :
  positive_digits w -> positive_digits h ->
  maxInt a < decimal w \/ maxInt a < decimal h ->
  Second.mainSize a (w ++ "x"%char :: h) w0
  = (print (ErrorText (if decimal w <=? maxInt a
                       then "Failed to parse height %s"
                       else "Failed to parse width %s") [w]) w0,
     Exit 1).
Proof.
  intros Pw Ph Hbig.
  destruct (positive_digits_digits w Pw) as (Nw & Fw & _).
  destruct (positive_digits_digits h Ph) as (Nh & Fh & _).
  rewrite (Second_mainSize_found a _ w h).
  - destruct (decimal w <=? maxInt a) eqn:E.
    + apply Z.leb_le in E.
      rewrite (proj1 (Atoi_digits a w Nw Fw) E).
      now rewrite (proj2 (Atoi_digits a h Nh Fh)) by lia.
    + apply Z.leb_gt in E.
      now rewrite (proj2 (Atoi_digits a w Nw Fw) E).
  - pose proof (size_split_form w h [] Pw Ph I) as Split.
    rewrite app_nil_r in Split. eapply first_size_here; eauto.
Qed.

Lemma Second_mainSize_out_of_range_witness :
  Second.mainSize arch32 (go "800x2147483648") emptyWorld
  = (print (ErrorText "Failed to parse height %s" [go "800"]) emptyWorld, Exit 1).
Proof.
  apply (Second_mainSize_out_of_range arch32 (go "800") (go "2147483648") emptyWorld).
  - split; repeat constructor.
  - split; repeat constructor.
  - right. vm_compute. reflexivity.
Defined.

(** ** Lines and colours *)

Lemma TrimLeft_hashes (n : nat) (s : str) :
  strings.TrimLeft (repeat "#"%char n ++ s) (go "#") = strings.TrimLeft s (go "#").
Proof.
  induction n as [| n IH]; simpl; auto.
Qed.

Lemma TrimLeft_lower_hex (n : nat) (ds : str) :
  lower_hex n ds -> strings.TrimLeft ds (go "#") = ds.
Proof.
  intros [_ F]. destruct ds as [| c ds]; auto.
  inversion_clear F as [| ? ? Hc _]. simpl. now rewrite (hash_is_not_hex _ Hc).
Qed.

(** X7: every leading [#] of a line is stripped, however many there are: a line
    of any number of [#] followed by six or three lowercase hexadecimal
    digits is parsed as the digits alone are. *)
Theorem parseHex_any_number_of_hashes (a : arch) (n : nat) (ds : str) :
  lower_hex 6 ds \/ lower_hex 3 ds ->
  strings.TrimLeft (repeat "#"%char n ++ ds) (go "#") = ds /\
  exists h, parseHex a (strings.TrimLeft (repeat "#"%char n ++ ds) (go "#"))
            = Done (h, None) /\
            parseHex a ds = Done (h, None).
Proof.
  intro H. rewrite TrimLeft_hashes.
  destruct H as [L | L]; rewrite (TrimLeft_lower_hex _ _ L); split; auto.
  - exists (hex6_color ds). auto using parseHex_six.
  - exists (hex3_color ds). auto using parseHex_three.
Qed.

Lemma parseHex_any_number_of_hashes_witness :
  lower_hex 3 (go "0af") /\
  strings.TrimLeft (go "###0af") (go "#") = go "0af".
Proof.
  assert (L : lower_hex 3 (go "0af")) by (split; [ reflexivity | repeat constructor ]).
  split; [ exact L | ].
  exact (proj1 (parseHex_any_number_of_hashes arch64 3 (go "0af") (or_intror L))).
Defined.

(** What is left of a line after the stripping never starts with [#], and a
    [#] further in is kept. *)
Lemma TrimLeft_no_leading_hash (s : str) :
  match strings.TrimLeft s (go "#") with
  | c :: _ => ascii_eqb c "#" = false
  | [] => True
  end.
Proof.
  induction s as [| c s IH]; simpl; auto.
  destruct (ascii_eqb c "#") eqn:E; simpl; auto.
Qed.

(** X8: the short form and its doubled long form are the same colour: three
    digits d1 d2 d3 parse to what d1 d1 d2 d2 d3 d3 parses to, name
    included. *)
Theorem parseHex_short_is_long (a : arch) (c1 c2 c3 : ascii) :
  Forall (fun c => is_lower_hex c = true) [c1; c2; c3] ->
  parseHex a [c1; c2; c3] = parseHex a [c1; c1; c2; c2; c3; c3] /\
  exists h, parseHex a [c1; c2; c3] = Done (h, None).
Proof.
  intro F.
  assert (L : lower_hex 3 [c1; c2; c3]) by (split; auto).
  destruct (hex3_color_name _ L) as [L6 E].
  rewrite (parseHex_three a _ L).
  change [c1; c1; c2; c2; c3; c3] with (Name (hex3_color [c1; c2; c3])).
  rewrite (parseHex_six a _ L6), E. eauto.
Qed.

Lemma parseHex_short_is_long_witness :
  parseHex arch64 (go "0af") = parseHex arch64 (go "00aaff").
Proof.
  apply (parseHex_short_is_long arch64 "0" "a" "f"). repeat constructor.
Defined.

Lemma hexval_inj (c c' : ascii) :
  is_lower_hex c = true -> is_lower_hex c' = true ->
  hexval c = hexval c' -> c = c'.
Proof.
  intros H H'. apply is_lower_hex_cases in H. apply is_lower_hex_cases in H'.
  simpl in H, H'.
  repeat (destruct H as [<- | H]; [ | ]); try contradiction;
    repeat (destruct H' as [<- | H']; [ | ]); try contradiction;
    vm_compute; intro E; solve [ reflexivity | discriminate E ].
Qed.

Lemma hexpair_inj (c1 c2 c1' c2' : ascii) :
  is_lower_hex c1 = true -> is_lower_hex c2 = true ->
  is_lower_hex c1' = true -> is_lower_hex c2' = true ->
  hexpair c1 c2 = hexpair c1' c2' -> c1 = c1' /\ c2 = c2'.
Proof.
  intros H1 H2 H1' H2' E. unfold hexpair in E.
  pose proof (hexval_range _ H1). pose proof (hexval_range _ H2).
  pose proof (hexval_range _ H1'). pose proof (hexval_range _ H2').
  split; apply hexval_inj; auto; lia.
Qed.

(** A colour the parser returns is the colour of its own name. *)
Lemma parseHex_named (a : arch) (s : str) (h : Hex) :
  parseHex a s = Done (h, None) ->
  lower_hex 6 (Name h) /\ h = hex6_color (Name h).
Proof.
  intro H. apply parseHex_success in H.
  destruct H as [[L ->] | [L ->]].
  - rewrite (hex6_color_name _ L). auto.
  - destruct (hex3_color_name _ L) as [L6 E]. auto.
Qed.

Lemma hex6_color_inj (n1 n2 : str) :
  lower_hex 6 n1 -> lower_hex 6 n2 ->
  Color (hex6_color n1) = Color (hex6_color n2) -> n1 = n2.
Proof.
  intros [L1 F1] [L2 F2].
  destruct n1 as [| a1 [| a2 [| a3 [| a4 [| a5 [| a6 [| a7 n1]]]]]]]; try discriminate L1.
  destruct n2 as [| b1 [| b2 [| b3 [| b4 [| b5 [| b6 [| b7 n2]]]]]]]; try discriminate L2.
  repeat match goal with
         | H : Forall _ (_ :: _) |- _ => inversion_clear H
         end.
  simpl. intro E. inversion E as [[E1 E2 E3]].
  apply hexpair_inj in E1; auto. apply hexpair_inj in E2; auto.
  apply hexpair_inj in E3; auto.
  destruct E1, E2, E3. congruence.
Qed.

(** X9: two parsed colours have the same name, hence the same file name,
    exactly when they have the same channels. *)
Theorem parseHex_name_determines_color (a : arch) (s1 s2 : str) (h1 h2 : Hex) :
  parseHex a s1 = Done (h1, None) ->
  parseHex a s2 = Done (h2, None) ->
  (Name h1 = Name h2 <-> Color h1 = Color h2).
Proof.
  intros H1 H2.
  destruct (parseHex_named a s1 h1 H1) as [L1 E1].
  destruct (parseHex_named a s2 h2 H2) as [L2 E2].
  split; intro E.
  - rewrite E1, E2, E. reflexivity.
  - apply hex6_color_inj; auto. now rewrite <- E1, <- E2.
Qed.

Lemma parseHex_name_determines_color_witness :
  Name (mkHex (Some (mkRGBA 0 170 255 255)) (go "00aaff"))
  = Name (mkHex (Some (mkRGBA 0 170 255 255)) (go "00aaff")) <->
  Color (mkHex (Some (mkRGBA 0 170 255 255)) (go "00aaff"))
  = Color (mkHex (Some (mkRGBA 0 170 255 255)) (go "00aaff")).
Proof.
  exact (parseHex_name_determines_color arch64 (go "0af") (go "00aaff")
           (mkHex (Some (mkRGBA 0 170 255 255)) (go "00aaff"))
           (mkHex (Some (mkRGBA 0 170 255 255)) (go "00aaff")) eq_refl eq_refl).
Defined.

(** ** What [generateImage] does to the directory *)

Lemma str_eqb_eq (s1 s2 : str) : str_eqb s1 s2 = true -> s1 = s2.
Proof.
  revert s2; induction s1 as [| c1 s1 IH]; intros [| c2 s2]; simpl;
    try discriminate; auto.
  intro H. apply andb_true_iff in H. destruct H as [Hc Hs].
  apply ascii_eqb_eq in Hc. apply IH in Hs. congruence.
Qed.

Lemma str_eqb_neq (s1 s2 : str) : s1 <> s2 -> str_eqb s1 s2 = false.
Proof.
  intro H. destruct (str_eqb s1 s2) eqn:E; auto.
  elim H. now apply str_eqb_eq.
Qed.

(** Opening the image file and writing [bs] to it, on the files. *)
Lemma open_and_encode (encode : Encoder) (img : image.Image) (name : str) (w : World) :
  exists w1 r,
    open_for_png name w = (w1, Done r) /\
    stdout w1 = stdout w /\ cwd_writable w1 = cwd_writable w /\
    match r with
    | inr e =>
        e = PathError "open" name /\
        openable (files w name) (cwd_writable w) = false /\
        w1 = w
    | inl f =>
        openable (files w name) (cwd_writable w) = true /\
        exists w2,
          png_Encode encode f img w1 = (w2, Done (snd (encode img))) /\
          stdout w2 = stdout w /\ cwd_writable w2 = cwd_writable w /\
          forall name',
            files w2 name' =
            if str_eqb name' name
            then rewritten (files w name) (cwd_writable w) (fst (encode img))
            else files w name'
    end.
Proof.
  unfold open_for_png, OpenFile.
  destruct (files w name) as [[[|] old |] |] eqn:E; simpl.
  - (* a writable file *)
    exists w, (inl (mkFile name 0)). repeat split; auto.
    unfold png_Encode, Write. destruct (encode img) as [bs err]. simpl fname.
    rewrite E. eexists. repeat split; auto.
  - exists w, (inr (PathError "open" name)). repeat split; auto.
  - exists w, (inr (PathError "open" name)). repeat split; auto.
  - destruct (cwd_writable w) eqn:D; simpl.
    + eexists. exists (inl (mkFile name 0)). repeat split; auto.
      unfold png_Encode, Write. destruct (encode img) as [bs err]. simpl fname.
      rewrite files_put. eexists. repeat split; auto.
      intro name'. simpl. destruct (str_eqb name' name); auto.
      now rewrite skipn_nil, app_nil_r.
    + exists w, (inr (PathError "open" name)). repeat split; auto.
Qed.

Lemma rewritten_unopenable (entry : option node) (d : bool) (bs : list Byte.byte) :
  openable entry d = false -> rewritten entry d bs = entry.
Proof.
  destruct entry as [[[|] old |] |]; simpl; try discriminate; auto.
  now intros ->.
Qed.

(** The first revision's [generateImage] on a valid colour: its result and
    the files it leaves. *)
Lemma First_generateImage_valid (a : arch) (encode : Encoder) (hex : str)
    (s : Size) (w : World) (c : Hex) :
  parseHex a hex = Done (c, None) ->
  exists w1,
    First.generateImage a encode hex s w =
      (w1, Done (if openable (files w (Name c ++ go ".png")) (cwd_writable w)
                 then snd (encode (raster c (Width s) (Height s)))
                 else Some (PathError "open" (Name c ++ go ".png")))) /\
    stdout w1 = stdout w /\ cwd_writable w1 = cwd_writable w /\
    forall name',
      files w1 name' =
      if str_eqb name' (Name c ++ go ".png")
      then rewritten (files w (Name c ++ go ".png")) (cwd_writable w) (encoded encode c s)
      else files w name'.
Proof.
  intro Hc. unfold First.generateImage, seq_io at 1, pure. rewrite Hc. cbv iota beta.
  fold (raster c (Width s) (Height s)).
  destruct (open_and_encode encode (raster c (Width s) (Height s))
              (Name c ++ go ".png") w) as (w1 & r & Ho & Hs & Hd & Hr).
  unfold seq_io at 1. rewrite Ho.
  destruct r as [f | e].
  - destruct Hr as (Hop & w2 & He & Hs2 & Hd2 & Hf).
    unfold seq_io. rewrite He, Hop.
    exists w2. repeat split; auto.
  - destruct Hr as (-> & Hop & ->). rewrite Hop.
    exists w. repeat split; auto.
    intro name'. destruct (str_eqb name' _) eqn:E; auto.
    apply str_eqb_eq in E. subst name'. now rewrite rewritten_unopenable.
Qed.

Lemma First_generateImage_invalid (a : arch) (encode : Encoder) (hex : str)
    (s : Size) (w : World) (c : Hex) (e : error_value) :
  parseHex a hex = Done (c, Some e) ->
  First.generateImage a encode hex s w = (w, Done (Some e)).
Proof.
  intro Hc. unfold First.generateImage, seq_io, pure. now rewrite Hc.
Qed.



Lemma rewritten_twice (entry : option node) (d : bool) (bs : list Byte.byte) :
  rewritten (rewritten entry d bs) d bs = rewritten entry d bs /\
  openable (rewritten entry d bs) d = openable entry d.
Proof.
  destruct entry as [[[|] old |] |]; simpl; auto.
  - split; auto. do 2 f_equal.
    rewrite skipn_app, skipn_all, Nat.sub_diag. reflexivity.
  - destruct d; simpl; auto. split; auto.
    now rewrite skipn_all, app_nil_r.
Qed.





(** X13: running the first revision's [generateImage] a second time on the same
    line and size changes nothing: the same result, the same files. *)
Theorem generateImage_twice (a : arch) (encode : Encoder) (hex : str) (s : Size)
    (w : World) (name : str) :
  snd (First.generateImage a encode hex s
         (fst (First.generateImage a encode hex s w)))
  = snd (First.generateImage a encode hex s w) /\
  files (fst (First.generateImage a encode hex s
                (fst (First.generateImage a encode hex s w)))) name
  = files (fst (First.generateImage a encode hex s w)) name.
Proof.
  destruct (parseHex_returns a hex) as (c & [e |] & Hc).
  - rewrite (First_generateImage_invalid a encode hex s w c e Hc). cbn [fst].
    rewrite (First_generateImage_invalid a encode hex s w c e Hc). auto.
  - destruct (First_generateImage_valid a encode hex s w c Hc)
      as (w1 & E1 & _ & D1 & F1).
    destruct (First_generateImage_valid a encode hex s w1 c Hc)
      as (w2 & E2 & _ & _ & F2).
    rewrite E1. cbn [fst snd]. rewrite E2. cbn [fst snd].
    destruct (rewritten_twice (files w (Name c ++ go ".png")) (cwd_writable w)
                (encoded encode c s)) as [R O].
    rewrite D1, (F1 (Name c ++ go ".png")), str_eqb_refl, O. split; auto.
    rewrite F2, D1, (F1 (Name c ++ go ".png")), str_eqb_refl, R.
    rewrite (F1 name). destruct (str_eqb name _); auto.
Qed.





(** ** The runs of [main] *)















(** X19: a size flag that is not a width, the letter x and a height ends the
    first revision before any line is read: the error and the usage are
    printed, the exit status is 1, the directory is as it was and the input
    is not closed. *)
Theorem main_invalid_size_is_fatal (a : arch) (encode : Encoder) (size : str)
    (input : ReadCloser) (w : World) :
  (~ exists sw sh,
       size = sw ++ "x"%char :: sh /\ positive_digits sw /\ positive_digits sh) ->
  First.main a encode size (input, None) w
  = (print Usage (print (ErrorLine (errorString "parse: invalid size")) w), Exit 1).
Proof.
  intro N. unfold First.main, seq_io at 1, pure.
  now rewrite (parseSize_not_a_size a size N).
Qed.

Lemma main_invalid_size_is_fatal_witness :
  First.main arch64 signatureOnly (go "800*600")
    (mkReadCloser [go "f00"] (Some (PathError "close" [])), None) emptyWorld
  = (print Usage (print (ErrorLine (errorString "parse: invalid size")) emptyWorld),
     Exit 1).
Proof.
  apply (main_invalid_size_is_fatal arch64 signatureOnly (go "800*600")).
  intros (sw & sh & E & Pw & Ph).
  destruct (positive_digits_digits sw Pw) as (_ & Fw & _).
  destruct (positive_digits_digits sh Ph) as (_ & Fh & _).
  assert (X : In "*"%char (sw ++ "x"%char :: sh)) by (rewrite <- E; simpl; auto).
  apply in_app_or in X. destruct X as [X | [X | X]].
  - rewrite Forall_forall in Fw. specialize (Fw _ X). discriminate Fw.
  - discriminate X.
  - rewrite Forall_forall in Fh. specialize (Fh _ X). discriminate Fh.
Defined.

(** ** The input source *)

(** X20: without a file name, a standard input that is a character device or
    that reports no size ends the first revision at once: the error and the
    usage are printed, the exit status is 1 and nothing else happens,
    whatever the size flag. *)
Theorem main_rejects_terminal_stdin (a : arch) (encode : Encoder) (size : str)
    (p : Platform) (info : FileInfo) (w : World) :
  StdinStat p = inl info ->
  Z.land (FileMode info) ModeCharDevice <> 0 \/ FileSize info <= 0 ->
  First.main a encode size (getInput p []) w
  = (print Usage (print (ErrorLine (errorString "Pipe input is invalid")) w), Exit 1).
Proof.
  intros Hstat Hbad. unfold getInput. rewrite Hstat.
  assert (E : (negb (Z.land (FileMode info) ModeCharDevice =? 0)
               || (FileSize info <=? 0)) = true).
  { destruct Hbad as [H | H].
    - apply Z.eqb_neq in H. now rewrite H.
    - apply Z.leb_le in H. rewrite H. apply orb_true_r. }
  rewrite E. reflexivity.
Qed.

Lemma main_rejects_terminal_stdin_witness :
  First.main arch64 signatureOnly (go "800x600") (getInput terminalPlatform []) emptyWorld
  = (print Usage (print (ErrorLine (errorString "Pipe input is invalid")) emptyWorld),
     Exit 1).
Proof.
  apply (main_rejects_terminal_stdin arch64 signatureOnly (go "800x600")
           terminalPlatform (mkFileInfo ModeCharDevice 0) emptyWorld eq_refl).
  right. simpl. lia.
Defined.



(** ** The raster *)




Section Fill.
Variables (width height : Z) (c : RGBA).
Hypothesis Hw : 0 <= width.
Hypothesis Hh : 0 <= height.

Let r : image.Rectangle := image.Rect 0 0 width height.














End Fill.


